(** * SuChain, package ethash: the hash stand-in, the seed derivation and the
    engine lifecycle of [consensus/ethash/algorithm.go], embedded in Rocq.

    Go values are modelled as the code has them: a [[]byte] is a [list byte],
    an [int] or [uint64] is a [Z] with its wrap-around written out, a pointer
    is an [option] of a location of an explicit heap, a run-time panic or a
    goroutine that blocks for ever is an outcome of its own. *)

From Stdlib Require Import ZArith NArith Lia.
From Stdlib.Strings Require Import Byte.
From stdpp Require Import base option list strings gmap.

Local Open Scope Z_scope.

(** ** Outcomes of a Go call *)

Inductive panic : Type :=
  | IndexOutOfRange
  | SliceBoundsOutOfRange
  | NilDereference
  | CloseOfClosedChannel
  | WriteAfterRead
  | CantFindReadMethod.

Inductive outcome (A : Type) : Type :=
  | Return (a : A)
  | Panics (p : panic)
  | Blocks.

Arguments Return {A} a.
Arguments Panics {A} p.
Arguments Blocks {A}.

#[global] Instance outcome_ret : MRet outcome := fun A a => Return a.

#[global] Instance outcome_bind : MBind outcome := fun A B k m =>
  match m with
  | Return a => k a
  | Panics p => Panics p
  | Blocks => Blocks
  end.

Definition returns {A : Type} (m : outcome A) : Prop := exists a, m = Return a.

(** ** Byte slices *)

Definition byte_xor (a b : byte) : byte :=
  match Byte.of_N (N.lxor (Byte.to_N a) (Byte.to_N b)) with
  | Some c => c
  | None => x00
  end.

(** [make([]byte, n)] *)
Definition make_bytes (n : nat) : list byte := replicate n x00.

(** [s[i]] as an rvalue: a run-time panic outside the slice. *)
Definition index (s : list byte) (i : nat) : outcome byte :=
  match s !! i with
  | Some b => Return b
  | None => Panics IndexOutOfRange
  end.

(** [s[i] = b]: a run-time panic outside the slice. *)
Definition store (s : list byte) (i : nat) (b : byte) : outcome (list byte) :=
  if decide (i < length s)%nat then Return (<[i:=b]> s) else Panics IndexOutOfRange.

(** ** hashimoto *)

(** The loop [for i := 0; i < len(hash); i++] of [hashimoto], entered at
    index [i] with [k = len(hash) - i] iterations to go. *)
Fixpoint hashimoto_loop (k i : nat) (hash nonceHash resultBytes : list byte)
  : outcome (list byte) :=
  match k with
  | O => Return resultBytes
  | S k' =>
      h ← index hash i;
      n ← index nonceHash i;
      resultBytes' ← store resultBytes i (byte_xor h n);
      hashimoto_loop k' (S i) hash nonceHash resultBytes'
  end.

Definition hashimoto (hash nonceHash : list byte) : outcome (list byte) :=
  let resultBytes := make_bytes (length hash) in
  hashimoto_loop (length hash) 0 hash nonceHash resultBytes.

Definition hashimotoLight (hash nonce : list byte) : outcome (list byte) :=
  hashimoto hash nonce.

Definition hashimotoFull (hash nonce : list byte) : outcome (list byte) :=
  hashimoto hash nonce.

(** The header digest of [TestHashimoto]. *)
Definition test_hash : list byte :=
  [xc9; x14; x9c; xc0; x38; x6e; x68; x9d; x78; x9a; x1c; x2f; x3d; x5d; x16; x9a;
   x61; xa6; x21; x8e; xd3; x0e; x74; x41; x4d; xc7; x36; xe4; x42; xef; x3d; x1f].

(** ** seedHash *)

Definition epochLength : Z := 30000.

(** A [uint64] operand is a [Z] below [2^64]; [int(x)] on a 64-bit target
    reads the same 64 bits as a signed number. *)
Definition uint64_range (x : Z) : Prop := 0 <= x < 2 ^ 64.

Definition int_of_uint64 (x : Z) : Z :=
  let y := x mod 2 ^ 64 in
  if decide (y < 2 ^ 63) then y else y - 2 ^ 64.

(** [golang.org/x/crypto/sha3] is not part of the repository. Its legacy
    Keccak-256 sponge is taken as a parameter: [keccak_squeeze d n] is the
    first [n] bytes squeezed after absorbing [d], and there are [n] of
    them. *)
Class Keccak := { keccak_squeeze : list byte -> nat -> list byte }.

Definition Keccak_lawful (K : Keccak) : Prop :=
  forall d n, length (keccak_squeeze d n) = n.

Section Seed.
Context {K : Keccak}.

(** The digest: the first [Size() = 32] bytes squeezed. *)
Definition sha3_Size : nat := 32.
Definition keccak256_digest (d : list byte) : list byte := keccak_squeeze d sha3_Size.

(** The sponge as [makeHasher] drives it: the bytes written since the last
    [Reset] and the number of bytes read since. *)
Record sha3_state := { absorbed : list byte; squeezed : nat }.

Definition NewLegacyKeccak256 : sha3_state := {| absorbed := []; squeezed := 0 |}.

Definition sha3_Reset (st : sha3_state) : sha3_state :=
  {| absorbed := []; squeezed := 0 |}.

Definition sha3_Write (st : sha3_state) (data : list byte) : outcome sha3_state :=
  match squeezed st with
  | O => Return {| absorbed := absorbed st ++ data; squeezed := 0 |}
  | S _ => Panics WriteAfterRead
  end.

(** [Read(p)] fills all of [p] with the next [len(p)] bytes of the stream. *)
Definition sha3_Read (st : sha3_state) (p : list byte) : sha3_state * list byte :=
  let n := length p in
  ({| absorbed := absorbed st; squeezed := squeezed st + n |},
   drop (squeezed st) (keccak_squeeze (absorbed st) (squeezed st + n))).

(** [hash.Hash] values: those with a [Read] method and those without. *)
Inductive hash_Hash : Type :=
  | ReaderHash (st : sha3_state)
  | PlainHash.

Inductive makeHasher_result : Type :=
  | Hasher (rh : sha3_state)
  | CantFindRead.

(** A [hasher] closes over the sponge [rh]; calling it passes the sponge's
    state on. [data] is absorbed in full before [dest] is written, so a
    call with [dest] and [data] the same slice reads the old contents. *)
Definition hasher_call (rh : sha3_state) (dest data : list byte)
  : outcome (sha3_state * list byte) :=
  let outputLen := sha3_Size in
  let rh := sha3_Reset rh in
  rh ← sha3_Write rh data;
  if decide (outputLen <= length dest)%nat then
    let '(rh, out) := sha3_Read rh (take outputLen dest) in
    Return (rh, out ++ drop outputLen dest)
  else Panics SliceBoundsOutOfRange.

Definition makeHasher (h : hash_Hash) : makeHasher_result :=
  match h with
  | ReaderHash rh => Hasher rh
  | PlainHash => CantFindRead
  end.

(** [for i := 0; i < n; i++ { keccak256(seed, seed) }] with [k] iterations
    to go. *)
Fixpoint seedHash_loop (k : nat) (rh : sha3_state) (seed : list byte)
  : outcome (list byte) :=
  match k with
  | O => Return seed
  | S k' =>
      r ← hasher_call rh seed seed;
      seedHash_loop k' r.1 r.2
  end.

Definition seedHash (block : Z) : outcome (list byte) :=
  let seed := make_bytes 32 in
  if decide (block < epochLength) then Return seed
  else
    match makeHasher (ReaderHash NewLegacyKeccak256) with
    | CantFindRead => Panics CantFindReadMethod
    | Hasher keccak256 =>
        seedHash_loop (Z.to_nat (int_of_uint64 (block / epochLength))) keccak256 seed
    end.

Definition SeedHash (block : Z) : outcome (list byte) := seedHash block.

End Seed.

(** A sponge to run [seedHash] on: it squeezes a one byte and then the
    input, padded with zero bytes. *)
Definition echo_squeeze (d : list byte) (n : nat) : list byte :=
  take n (x01 :: d ++ replicate n x00).

Definition echo_Keccak : Keccak := {| keccak_squeeze := echo_squeeze |}.


(** ** The engine *)

(** [type Mode uint]: a mode is an unsigned integer, and not only the
    constants below are modes: any [uint] converts to a [Mode] and can be
    put into a [Config]. *)
Definition Mode : Type := Z.

#[global] Instance Mode_eq_dec : EqDecision Mode := Z.eq_dec.

(** [const ( ModeNormal Mode = iota; ModeShared; ModeTest; ModeFake;
    ModeFullFake )]: the constant in line [i] of the block is [i]. *)
Definition ModeNormal : Mode := 0.
Definition ModeShared : Mode := 1.
Definition ModeTest : Mode := 2.
Definition ModeFake : Mode := 3.
Definition ModeFullFake : Mode := 4.

(** [uint(m)] *)
Definition Mode_uint (m : Mode) : Z := m.

(** The constants of the block, in the order of their declaration. *)
Definition Mode_constants : list Mode :=
  [ModeNormal; ModeShared; ModeTest; ModeFake; ModeFullFake].

(** The packages the engine imports from outside the repository, as far as
    this file uses them: [log], [metrics], [math/rand] and the [float64]
    arithmetic of [Hashrate]. [Meter_zero] is the value a [metrics.Meter]
    field has when a composite literal leaves it out; what a call of
    [Rate1] does on a given meter, returning a rate or panicking, is the
    package's business. *)
Class Packages := {
  Logger : Type;
  log_Root : Logger;
  Rand : Type;
  float64 : Type;
  float64_add : float64 -> float64 -> float64;
  float64_of_uint64 : Z -> float64;
  Meter : Type;
  Meter_zero : Meter;
  metrics_NewMeterForced : Meter;
  Rate1 : Meter -> outcome float64
}.

(** [metrics.Meter] is an interface type: the value [Meter_zero] of a
    field a composite literal leaves out is the nil interface, and a
    method call on a nil interface value is a run-time panic, a nil
    dereference. *)
Definition nil_Meter_panics (P : Packages) : Prop :=
  Rate1 Meter_zero = Panics NilDereference.

Definition loc : Type := positive.

Inductive chan_state : Type := ChanOpen | ChanClosed.

#[global] Instance chan_state_eq_dec : EqDecision chan_state.
Proof. solve_decision. Defined.

(** [close(c)] *)
Definition close_chan (c : chan_state) : outcome chan_state :=
  match c with
  | ChanOpen => Return ChanClosed
  | ChanClosed => Panics CloseOfClosedChannel
  end.

(** Modelled from the spec: the type [remoteSealer] and its goroutine, which
    [startRemoteSealer] creates, are not among the sources. The handle holds
    the notify list and the skip-verification flag it was started with, the
    close signal [requestExit], the exit confirmation [exitCh], and the
    aggregate remote hashrate the coordinator answers a request on
    [fetchRateCh] with. *)
Record remoteSealer : Type := {
  notifyURLs : list string;
  noverify : bool;
  requestExit : chan_state;
  exitCh : chan_state;
  remoteRate : Z
}.

(** Modelled from the spec: the coordinator's side of the clean-exit
    handshake. Once the close signal is given the coordinator unwinds and
    confirms on [exitCh]. *)
Definition remoteSealer_loop (s : remoteSealer) : remoteSealer :=
  match requestExit s with
  | ChanOpen => s
  | ChanClosed =>
      {| notifyURLs := notifyURLs s; noverify := noverify s;
         requestExit := ChanClosed; exitCh := ChanClosed;
         remoteRate := remoteRate s |}
  end.

(** What the engine does that other goroutines can see. *)
Inductive event : Type :=
  | EvStartRemoteSealer (l : loc) (notify : list string) (noverify : bool)
  | EvCloseRequestExit (l : loc)
  | EvExitConfirmed (l : loc)
  | EvUpdate (l : loc).

#[global] Instance event_eq_dec : EqDecision event.
Proof. solve_decision. Defined.

Section Engine.
Context {P : Packages}.

Record Config : Type := {
  PowMode : Mode;
  NotifyFull : bool;
  Log : option Logger
}.

(** The zero [Config]: [PowMode] is the constant of value 0. *)
Definition Config_zero : Config :=
  {| PowMode := ModeNormal; NotifyFull := false; Log := None |}.

(** [update] is [None] for a nil channel and otherwise counts the
    goroutines waiting to receive on the unbuffered channel. [shared]
    points into the heap. [closeOnce] is the done flag of the
    [sync.Once]. The mutex is free between calls: a call takes it on
    entry and gives it back on return. *)
Record Hmhash : Type := {
  config : Config;
  rand : option Rand;
  threads : Z;
  update : option nat;
  hashrate : Meter;
  remote : option remoteSealer;
  shared : option loc;
  fakeFail : Z;
  fakeDelay : Z;
  closeOnce : bool
}.

(** The process: the engines allocated so far, the package variable
    [sharedHmhash] and the events so far. *)
Record Process : Type := {
  heap : gmap loc Hmhash;
  sharedHmhash : option loc;
  trace : list event
}.

Definition Process_start : Process :=
  {| heap := ∅; sharedHmhash := None; trace := [] |}.

Definition alloc (σ : Process) : loc := fresh (dom (heap σ)).

Definition deref (σ : Process) (l : loc) : outcome Hmhash :=
  match heap σ !! l with
  | Some e => Return e
  | None => Panics NilDereference
  end.

(** Modelled from the spec: [startRemoteSealer] is not among the sources.
    It always starts the coordinator, handing it the notify list and the
    skip-verification flag; no remote miner has reported a rate yet. *)
Definition startRemoteSealer (l : loc) (notify : list string) (noverify : bool)
  : remoteSealer * list event :=
  ({| notifyURLs := notify; noverify := noverify;
      requestExit := ChanOpen; exitCh := ChanOpen; remoteRate := 0 |},
   [EvStartRemoteSealer l notify noverify]).

Definition New (config : Config) (notify : list string) (noverify : bool)
    (σ : Process) : loc * Process :=
  let config :=
    match Log config with
    | None => {| PowMode := PowMode config; NotifyFull := NotifyFull config;
                 Log := Some log_Root |}
    | Some _ => config
    end in
  let l := alloc σ in
  let shared :=
    if decide (PowMode config = ModeShared) then sharedHmhash σ else None in
  let '(r, evs) := startRemoteSealer l notify noverify in
  let hmhash :=
    {| config := config; rand := None; threads := 0; update := Some 0%nat;
       hashrate := metrics_NewMeterForced; remote := Some r; shared := shared;
       fakeFail := 0; fakeDelay := 0; closeOnce := false |} in
  (l, {| heap := <[l := hmhash]> (heap σ); sharedHmhash := sharedHmhash σ;
         trace := trace σ ++ evs |}).

(** [func init()] *)
Definition init (σ : Process) : Process :=
  let sharedConfig := {| PowMode := ModeNormal; NotifyFull := false; Log := None |} in
  let '(l, σ) := New sharedConfig [] false σ in
  {| heap := heap σ; sharedHmhash := Some l; trace := trace σ |}.

Definition NewTester (notify : list string) (noverify : bool) (σ : Process)
  : loc * Process :=
  New {| PowMode := ModeTest; NotifyFull := false; Log := None |} notify noverify σ.

(** [&Hmhash{...}] puts the literal on the heap; the fields a literal
    leaves out are zero. *)
Definition new_Hmhash (hmhash : Hmhash) (σ : Process) : loc * Process :=
  let l := alloc σ in
  (l, {| heap := <[l := hmhash]> (heap σ); sharedHmhash := sharedHmhash σ;
         trace := trace σ |}).

Definition NewFaker (σ : Process) : loc * Process :=
  new_Hmhash
    {| config := {| PowMode := ModeFake; NotifyFull := false; Log := Some log_Root |};
       rand := None; threads := 0; update := None; hashrate := Meter_zero;
       remote := None; shared := None; fakeFail := 0; fakeDelay := 0;
       closeOnce := false |} σ.

Definition NewFakeFailer (fail : Z) (σ : Process) : loc * Process :=
  new_Hmhash
    {| config := {| PowMode := ModeFake; NotifyFull := false; Log := Some log_Root |};
       rand := None; threads := 0; update := None; hashrate := Meter_zero;
       remote := None; shared := None; fakeFail := fail; fakeDelay := 0;
       closeOnce := false |} σ.

Definition NewFakeDelayer (delay : Z) (σ : Process) : loc * Process :=
  new_Hmhash
    {| config := {| PowMode := ModeFake; NotifyFull := false; Log := Some log_Root |};
       rand := None; threads := 0; update := None; hashrate := Meter_zero;
       remote := None; shared := None; fakeFail := 0; fakeDelay := delay;
       closeOnce := false |} σ.

Definition NewFullFaker (σ : Process) : loc * Process :=
  new_Hmhash
    {| config := {| PowMode := ModeFullFake; NotifyFull := false; Log := Some log_Root |};
       rand := None; threads := 0; update := None; hashrate := Meter_zero;
       remote := None; shared := None; fakeFail := 0; fakeDelay := 0;
       closeOnce := false |} σ.

Definition NewShared (σ : Process) : loc * Process :=
  new_Hmhash
    {| config := Config_zero; rand := None; threads := 0; update := None;
       hashrate := Meter_zero; remote := None; shared := sharedHmhash σ;
       fakeFail := 0; fakeDelay := 0; closeOnce := false |} σ.

(** *** Shutdown *)

Definition set_remote_closeOnce (e : Hmhash) (r : option remoteSealer) (done : bool)
  : Hmhash :=
  {| config := config e; rand := rand e; threads := threads e; update := update e;
     hashrate := hashrate e; remote := r; shared := shared e;
     fakeFail := fakeFail e; fakeDelay := fakeDelay e; closeOnce := done |}.

(** The function [StopRemoteSealer] hands to [closeOnce.Do]: it closes
    [requestExit] and receives on [exitCh], which blocks until the
    coordinator has closed it. *)
Definition stop_func (l : loc) (e : Hmhash) : outcome (Hmhash * list event) :=
  match remote e with
  | None => Return (e, [])
  | Some r =>
      c ← close_chan (requestExit r);
      let r :=
        remoteSealer_loop
          {| notifyURLs := notifyURLs r; noverify := noverify r;
             requestExit := c; exitCh := exitCh r; remoteRate := remoteRate r |} in
      match exitCh r with
      | ChanClosed =>
          Return (set_remote_closeOnce e (Some r) (closeOnce e),
                  [EvCloseRequestExit l; EvExitConfirmed l])
      | ChanOpen => Blocks
      end
  end.

(** [sync.Once.Do]: the function runs if the flag is not set yet, and the
    flag is set when it has returned. *)
Definition Once_Do (l : loc) (f : loc -> Hmhash -> outcome (Hmhash * list event))
    (e : Hmhash) : outcome (Hmhash * list event) :=
  if closeOnce e then Return (e, [])
  else
    r ← f l e;
    Return (set_remote_closeOnce r.1 (remote r.1) true, r.2).

(** The [error] a call returns: [None] is [nil]. *)
Definition error : Type := option string.

Definition StopRemoteSealer (l : loc) (σ : Process) : outcome (error * Process) :=
  e ← deref σ l;
  r ← Once_Do l stop_func e;
  Return (None, {| heap := <[l := r.1]> (heap σ); sharedHmhash := sharedHmhash σ;
                   trace := trace σ ++ r.2 |}).

Definition Close (l : loc) (σ : Process) : outcome (error * Process) :=
  StopRemoteSealer l σ.

(** [Close] called [k] times in a row; the errors returned, first call
    first. *)
Fixpoint Close_times (k : nat) (l : loc) (σ : Process) : outcome (list error * Process) :=
  match k with
  | O => Return ([], σ)
  | S k' =>
      r ← Close l σ;
      rs ← Close_times k' l r.2;
      Return (r.1 :: rs.1, rs.2)
  end.

(** How often the teardown of the engine at [l] ran. *)
Definition teardowns (l : loc) (t : list event) : nat :=
  length (filter (fun ev => ev = EvCloseRequestExit l) t).

(** *** Threads *)

Definition Threads (l : loc) (σ : Process) : outcome Z :=
  e ← deref σ l;
  Return (threads e).

Definition set_threads_update (e : Hmhash) (n : Z) (u : option nat) : Hmhash :=
  {| config := config e; rand := rand e; threads := n; update := u;
     hashrate := hashrate e; remote := remote e; shared := shared e;
     fakeFail := fakeFail e; fakeDelay := fakeDelay e; closeOnce := closeOnce e |}.

(** [select { case hmhash.update <- struct{}{}: default: }]: the send goes
    through when a goroutine is waiting to receive, and is dropped
    otherwise (also on a nil channel). *)
Definition ping_update (l : loc) (u : option nat) : option nat * list event :=
  match u with
  | Some (S k) => (Some k, [EvUpdate l])
  | _ => (u, [])
  end.

(** [SetThreads] calls itself on the shared engine while it holds its own
    mutex: [fuel] bounds the depth of that chain, and a chain that comes
    back to an engine whose mutex is held never returns. *)
Fixpoint SetThreads_fuel (fuel : nat) (l : loc) (n : Z) (σ : Process) : outcome Process :=
  match fuel with
  | O => Blocks
  | S fuel' =>
      e ← deref σ l;
      match shared e with
      | Some s => SetThreads_fuel fuel' s n σ
      | None =>
          let '(u, evs) := ping_update l (update e) in
          Return {| heap := <[l := set_threads_update e n u]> (heap σ);
                    sharedHmhash := sharedHmhash σ;
                    trace := trace σ ++ evs |}
      end
  end.

Definition SetThreads (l : loc) (n : Z) (σ : Process) : outcome Process :=
  SetThreads_fuel (S (size (heap σ))) l n σ.

(** *** Hashrate *)

(** The [select] of [Hashrate] against the coordinator: the send on
    [fetchRateCh] is taken by a coordinator that is running, which answers
    with its aggregate; the receive on [exitCh] goes through once the
    channel is closed. A coordinator that was asked to exit is taken to
    have left. *)
Definition Hashrate (l : loc) (σ : Process) : outcome float64 :=
  e ← deref σ l;
  if decide (PowMode (config e) ≠ ModeNormal ∧ PowMode (config e) ≠ ModeTest) then
    Rate1 (hashrate e)
  else
    match remote e with
    | None => Panics NilDereference
    | Some r =>
        match exitCh (remoteSealer_loop r) with
        | ChanClosed => Rate1 (hashrate e)
        | ChanOpen =>
            let res := remoteRate r in
            local ← Rate1 (hashrate e);
            Return (float64_add local (float64_of_uint64 res))
        end
    end.

(** Modelled from the spec: a remote miner's report reaches the
    coordinator of the engine at [l], which from then on answers with the
    new aggregate. A coordinator that has exited takes no reports. *)
Definition report_rate (l : loc) (rate : Z) (σ : Process) : Process :=
  match heap σ !! l with
  | Some e =>
      match remote e with
      | Some r =>
          match exitCh r with
          | ChanOpen =>
              let r := {| notifyURLs := notifyURLs r; noverify := noverify r;
                          requestExit := requestExit r; exitCh := exitCh r;
                          remoteRate := rate mod 2 ^ 64 |} in
              {| heap := <[l := set_remote_closeOnce e (Some r) (closeOnce e)]> (heap σ);
                 sharedHmhash := sharedHmhash σ; trace := trace σ |}
          | ChanClosed => σ
          end
      | None => σ
      end
  | None => σ
  end.

(** *** The states a process gets into *)

(** The coordinator of an engine runs exactly as long as the engine's
    teardown has not. *)
Definition sealer_wf (e : Hmhash) : Prop :=
  forall r, remote e = Some r ->
    if closeOnce e
    then requestExit r = ChanClosed /\ exitCh r = ChanClosed
    else requestExit r = ChanOpen /\ exitCh r = ChanOpen.

(** A shared pointer leads to an engine that does not delegate further. *)
Definition shared_wf (h : gmap loc Hmhash) (o : option loc) : Prop :=
  forall s, o = Some s -> exists es, h !! s = Some es /\ shared es = None.

Definition Process_wf (σ : Process) : Prop :=
  shared_wf (heap σ) (sharedHmhash σ)
  /\ forall l e, heap σ !! l = Some e -> sealer_wf e /\ shared_wf (heap σ) (shared e).

Inductive reachable : Process -> Prop :=
  | reach_init : reachable (init Process_start)
  | reach_New config notify noverify σ :
      reachable σ -> reachable (New config notify noverify σ).2
  | reach_NewTester notify noverify σ :
      reachable σ -> reachable (NewTester notify noverify σ).2
  | reach_NewFaker σ : reachable σ -> reachable (NewFaker σ).2
  | reach_NewFakeFailer fail σ : reachable σ -> reachable (NewFakeFailer fail σ).2
  | reach_NewFakeDelayer delay σ : reachable σ -> reachable (NewFakeDelayer delay σ).2
  | reach_NewFullFaker σ : reachable σ -> reachable (NewFullFaker σ).2
  | reach_NewShared σ : reachable σ -> reachable (NewShared σ).2
  | reach_SetThreads l n σ σ' :
      reachable σ -> SetThreads l n σ = Return σ' -> reachable σ'
  | reach_Close l err σ σ' :
      reachable σ -> Close l σ = Return (err, σ') -> reachable σ'
  | reach_report l rate σ : reachable σ -> reachable (report_rate l rate σ).

(** *** The results of the operations, spelled out *)

(** The engine [New] builds, field by field. *)
Definition New_engine (config : Config) (notify : list string) (noverify : bool)
    (σ : Process) : Hmhash :=
  {| config := {| PowMode := PowMode config; NotifyFull := NotifyFull config;
                  Log := Some (default log_Root (Log config)) |};
     rand := None; threads := 0; update := Some 0%nat;
     hashrate := metrics_NewMeterForced;
     remote := Some {| notifyURLs := notify; noverify := noverify;
                       requestExit := ChanOpen; exitCh := ChanOpen; remoteRate := 0 |};
     shared := if decide (PowMode config = ModeShared) then sharedHmhash σ else None;
     fakeFail := 0; fakeDelay := 0; closeOnce := false |}.

(** The coordinator's handle after the handshake. *)
Definition closed_sealer (r : remoteSealer) : remoteSealer :=
  {| notifyURLs := notifyURLs r; noverify := noverify r;
     requestExit := ChanClosed; exitCh := ChanClosed; remoteRate := remoteRate r |}.

Definition closed_engine (e : Hmhash) : Hmhash :=
  set_remote_closeOnce e (closed_sealer <$> remote e) true.

Definition teardown_events (l : loc) (e : Hmhash) : list event :=
  match remote e with
  | Some _ => [EvCloseRequestExit l; EvExitConfirmed l]
  | None => []
  end.

(** The state [SetThreads] leaves when the engine at [l] holds the count
    itself. *)
Definition threads_set (l : loc) (e : Hmhash) (n : Z) (σ : Process) : Process :=
  {| heap := <[l := set_threads_update e n (ping_update l (update e)).1]> (heap σ);
     sharedHmhash := sharedHmhash σ;
     trace := trace σ ++ (ping_update l (update e)).2 |}.

End Engine.

(** ** A process to run the engine in *)

(** A stand-in for the outside packages: a rate is an integer, and a meter
    is nil or the rate it reads. *)
Definition sample_Packages : Packages :=
  {| Logger := unit; log_Root := tt; Rand := unit;
     float64 := Z; float64_add := Z.add; float64_of_uint64 := fun x => x;
     Meter := option Z; Meter_zero := None; metrics_NewMeterForced := Some 0;
     Rate1 := fun m => match m with
                       | Some rate => Return rate
                       | None => Panics NilDereference
                       end |}.

(** The process after [init], and its singleton. *)
Definition sample_start : Process (P := sample_Packages) :=
  init (P := sample_Packages) Process_start.

Definition sample_singleton : loc := alloc (P := sample_Packages) Process_start.

Definition sample_singleton_engine : Hmhash (P := sample_Packages) :=
  New_engine {| PowMode := ModeNormal; NotifyFull := false; Log := None |}
    [] false Process_start.

(** [NewShared()] called in the process after [init]. *)
Definition sample_NewShared : loc * Process (P := sample_Packages) :=
  NewShared sample_start.

(** ** prepare *)

(** A [uint32] is a [Z] below [2^32]; a shift wraps around. *)
Definition uint32_range (x : Z) : Prop := 0 <= x < 2 ^ 32.

Definition uint32_shl (x : Z) (k : Z) : Z := Z.shiftl x k mod 2 ^ 32.

(** [uint32(b)] of a byte *)
Definition uint32_of_byte (b : byte) : Z := Z.of_N (Byte.to_N b).

(** [s[i:]]: a run-time panic when [i] is past the end. *)
Definition slice_from (s : list byte) (i : nat) : outcome (list byte) :=
  if decide (i <= length s)%nat then Return (drop i s) else Panics SliceBoundsOutOfRange.

(** [binary.LittleEndian.Uint32(b)]: it touches [b[3]] first, which panics
    on fewer than four bytes, and then assembles the word. *)
Definition LittleEndian_Uint32 (b : list byte) : outcome Z :=
  match b with
  | b0 :: b1 :: b2 :: b3 :: _ =>
      Return (Z.lor (Z.lor (Z.lor (uint32_of_byte b0)
                                  (uint32_shl (uint32_of_byte b1) 8))
                           (uint32_shl (uint32_of_byte b2) 16))
                    (uint32_shl (uint32_of_byte b3) 24))
  | _ => Panics IndexOutOfRange
  end.

(** [dest[i] = w] on a [[]uint32]. *)
Definition store_uint32 (s : list Z) (i : nat) (w : Z) : outcome (list Z) :=
  if decide (i < length s)%nat then Return (<[i:=w]> s) else Panics IndexOutOfRange.

(** The loop [for i := 0; i < len(dest); i++] of [prepare], entered at index
    [i] with [k = len(dest) - i] iterations to go. *)
Fixpoint prepare_loop (k i : nat) (dest : list Z) (src : list byte) : outcome (list Z) :=
  match k with
  | O => Return dest
  | S k' =>
      b ← slice_from src (i * 4);
      w ← LittleEndian_Uint32 b;
      dest' ← store_uint32 dest i w;
      prepare_loop k' (S i) dest' src
  end.

(** [prepare] writes into [dest]; the model returns the new contents. *)
Definition prepare (dest : list Z) (src : list byte) : outcome (list Z) :=
  prepare_loop (length dest) 0 dest src.

(** The byte stream of a list of words, least significant byte first: what
    [prepare] is meant to read back. *)
Definition byte_of_Z (z : Z) : byte :=
  match Byte.of_N (Z.to_N (z mod 256)) with
  | Some b => b
  | None => x00
  end.

Definition uint32_bytes (w : Z) : list byte :=
  [byte_of_Z w; byte_of_Z (w / 2 ^ 8); byte_of_Z (w / 2 ^ 16); byte_of_Z (w / 2 ^ 24)].

Definition words_bytes (ws : list Z) : list byte := ws ≫= uint32_bytes.

(** The word [prepare] reads at index [i] of [src]. *)
Definition word_at (src : list byte) (i : nat) : option Z :=
  b0 ← src !! (4 * i)%nat;
  b1 ← src !! (4 * i + 1)%nat;
  b2 ← src !! (4 * i + 2)%nat;
  b3 ← src !! (4 * i + 3)%nat;
  Some (uint32_of_byte b0 + 2 ^ 8 * uint32_of_byte b1
        + 2 ^ 16 * uint32_of_byte b2 + 2 ^ 24 * uint32_of_byte b3).

(** ** The operations as steps of a process *)

Section EngineSteps.
Context {P : Packages}.

(** One call of a constructor, of [SetThreads] or of [Close] that returns,
    or one report of a remote miner. *)
Inductive step : Process -> Process -> Prop :=
  | step_New config notify noverify σ : step σ (New config notify noverify σ).2
  | step_NewTester notify noverify σ : step σ (NewTester notify noverify σ).2
  | step_NewFaker σ : step σ (NewFaker σ).2
  | step_NewFakeFailer fail σ : step σ (NewFakeFailer fail σ).2
  | step_NewFakeDelayer delay σ : step σ (NewFakeDelayer delay σ).2
  | step_NewFullFaker σ : step σ (NewFullFaker σ).2
  | step_NewShared σ : step σ (NewShared σ).2
  | step_SetThreads l n σ σ' : SetThreads l n σ = Return σ' -> step σ σ'
  | step_Close l err σ σ' : Close l σ = Return (err, σ') -> step σ σ'
  | step_report l rate σ : step σ (report_rate l rate σ).

(** What no operation changes about an engine: its configuration, its
    delegate, its random source, its meter, its test hooks, whether it has a
    remote handle and what that was started with; and a once-flag that is
    set stays set. *)
Definition same_setup (e e' : Hmhash) : Prop :=
  config e' = config e
  /\ shared e' = shared e
  /\ rand e' = rand e
  /\ hashrate e' = hashrate e
  /\ fakeFail e' = fakeFail e
  /\ fakeDelay e' = fakeDelay e
  /\ (notifyURLs <$> remote e') = (notifyURLs <$> remote e)
  /\ (noverify <$> remote e') = (noverify <$> remote e)
  /\ (closeOnce e = true -> closeOnce e' = true).

(** The singleton [init] makes. *)
Definition singleton : loc := alloc Process_start.

(** The engine a call of [SetThreads] on [l] ends at: [l] itself when it
    has no delegate, and otherwise the engine the call on its delegate
    ends at. *)
Inductive ends_at (σ : Process) : loc -> loc -> Prop :=
  | ends_here l e :
      heap σ !! l = Some e -> shared e = None -> ends_at σ l l
  | ends_further l e s l0 :
      heap σ !! l = Some e -> shared e = Some s -> ends_at σ s l0 -> ends_at σ l l0.

End EngineSteps.

(** * Properties *)

Section Hashimoto.

Lemma N_log2_byte (x : N) : (x <= 255)%N -> (N.log2 x < 8)%N.
Proof.
  intros Hx.
  destruct (N.eq_dec x 0%N) as [->|Hnz]; [reflexivity|].
  apply N.log2_lt_pow2; [lia|]. change (2 ^ 8)%N with 256%N. lia.
Qed.

Lemma N_lxor_byte (x y : N) : (x <= 255)%N -> (y <= 255)%N -> (N.lxor x y <= 255)%N.
Proof.
  intros Hx Hy.
  destruct (N.eq_dec (N.lxor x y) 0%N) as [->|Hnz]; [lia|].
  cut (N.lxor x y < 2 ^ 8)%N; [change (2 ^ 8)%N with 256%N; lia|].
  apply N.log2_lt_pow2; [lia|].
  eapply N.le_lt_trans; [apply N.log2_lxor|].
  apply N.max_lub_lt; by apply N_log2_byte.
Qed.

Lemma byte_xor_to_N (a b : byte) :
  Byte.to_N (byte_xor a b) = N.lxor (Byte.to_N a) (Byte.to_N b).
Proof.
  unfold byte_xor.
  destruct (Byte.of_N _) as [c|] eqn:E.
  - by apply Byte.to_of_N in E.
  - apply Byte.of_N_None_iff in E.
    pose proof (N_lxor_byte _ _ (Byte.to_N_bounded a) (Byte.to_N_bounded b)).
    lia.
Qed.

Lemma index_Some (s : list byte) (i : nat) (b : byte) :
  s !! i = Some b -> index s i = Return b.
Proof. unfold index. by intros ->. Qed.

Lemma index_ge (s : list byte) (i : nat) :
  (length s <= i)%nat -> index s i = Panics IndexOutOfRange.
Proof. intros H. unfold index. by rewrite lookup_ge_None_2. Qed.

Lemma store_lt (s : list byte) (i : nat) (b : byte) :
  (i < length s)%nat -> store s i b = Return (<[i:=b]> s).
Proof. intros H. unfold store. by rewrite decide_True. Qed.

(** The invariant of the loop: below [i] and from [i + k] on the buffer is
    left alone, and the [k] cells in between receive the XOR. *)
Lemma hashimoto_loop_returns (k : nat) :
  forall (i : nat) (hash nonceHash resultBytes : list byte),
    (i + k <= length hash)%nat ->
    (i + k <= length nonceHash)%nat ->
    (i + k <= length resultBytes)%nat ->
    exists r,
      hashimoto_loop k i hash nonceHash resultBytes = Return r
      /\ length r = length resultBytes
      /\ (forall j, (j < i \/ i + k <= j)%nat -> r !! j = resultBytes !! j)
      /\ (forall j hb nb, (i <= j < i + k)%nat ->
            hash !! j = Some hb -> nonceHash !! j = Some nb ->
            r !! j = Some (byte_xor hb nb)).
Proof.
  induction k as [|k IH]; intros i hash nonceHash resultBytes Hh Hn Hr.
  - exists resultBytes. simpl. repeat split; auto. intros; lia.
  - destruct (lookup_lt_is_Some_2 hash i) as [hb Hhb]; [lia|].
    destruct (lookup_lt_is_Some_2 nonceHash i) as [nb Hnb]; [lia|].
    cbn [hashimoto_loop].
    rewrite (index_Some _ _ _ Hhb), (index_Some _ _ _ Hnb).
    cbn [mbind outcome_bind].
    rewrite store_lt by lia. cbn [mbind outcome_bind].
    destruct (IH (S i) hash nonceHash (<[i:=byte_xor hb nb]> resultBytes))
      as (r & Hrun & Hlen & Hout & Hin);
      rewrite ?length_insert; try lia.
    exists r. rewrite Hrun. rewrite length_insert in Hlen.
    repeat split; auto.
    + intros j Hj. rewrite Hout by lia.
      apply list_lookup_insert_ne. lia.
    + intros j hb' nb' Hj Hhb' Hnb'.
      destruct (decide (j = i)) as [->|Hne].
      * rewrite Hout by lia.
        rewrite Hhb in Hhb'. rewrite Hnb in Hnb'.
        injection Hhb' as <-. injection Hnb' as <-.
        apply list_lookup_insert_eq. lia.
      * apply Hin; auto. lia.
Qed.

(** When the nonce hash ends inside the range still to visit, the loop
    reaches the first index past its end and panics there. *)
Lemma hashimoto_loop_panics (k : nat) :
  forall (i : nat) (hash nonceHash resultBytes : list byte),
    (i + k <= length hash)%nat ->
    (i + k <= length resultBytes)%nat ->
    (i <= length nonceHash < i + k)%nat ->
    hashimoto_loop k i hash nonceHash resultBytes = Panics IndexOutOfRange.
Proof.
  induction k as [|k IH]; intros i hash nonceHash resultBytes Hh Hr Hn; [lia|].
  destruct (lookup_lt_is_Some_2 hash i) as [hb Hhb]; [lia|].
  cbn [hashimoto_loop].
  rewrite (index_Some _ _ _ Hhb). cbn [mbind outcome_bind].
  destruct (decide (length nonceHash = i)) as [Heq|Hne].
  - rewrite index_ge by lia. reflexivity.
  - destruct (lookup_lt_is_Some_2 nonceHash i) as [nb Hnb]; [lia|].
    rewrite (index_Some _ _ _ Hnb). cbn [mbind outcome_bind].
    rewrite store_lt by lia. cbn [mbind outcome_bind].
    apply IH; rewrite ?length_insert; lia.
Qed.

Lemma length_make_bytes (n : nat) : length (make_bytes n) = n.
Proof. apply length_replicate. Qed.

(** C3. For all byte slices [h] and [n], [hashimotoLight(h, n)] and
    [hashimotoFull(h, n)] have the same outcome: the same bytes when they
    return, the same panic when they do not. *)
Theorem hashimotoLight_eq_hashimotoFull (h n : list byte) :
  hashimotoLight h n = hashimotoFull h n
  /\ hashimotoLight h n = hashimoto h n
  /\ hashimotoFull h n = hashimoto h n.
Proof. repeat split. Qed.

(** C8. When the nonce digest is at least as long as the header digest,
    [hashimoto] returns a slice as long as the header digest whose [i]-th
    byte is the bitwise XOR of the [i]-th bytes of the two arguments. *)
Theorem hashimoto_xor (h n : list byte) :
  (length h <= length n)%nat ->
  exists r,
    hashimoto h n = Return r
    /\ length r = length h
    /\ forall i, (i < length h)%nat ->
         exists hb nb rb,
           h !! i = Some hb /\ n !! i = Some nb /\ r !! i = Some rb
           /\ rb = byte_xor hb nb
           /\ Byte.to_N rb = N.lxor (Byte.to_N hb) (Byte.to_N nb).
Proof.
  intros Hlen.
  destruct (hashimoto_loop_returns (length h) 0 h n (make_bytes (length h)))
    as (r & Hrun & Hr & _ & Hin); rewrite ?length_make_bytes; try lia.
  exists r. split; [exact Hrun|]. rewrite length_make_bytes in Hr.
  split; [exact Hr|].
  intros i Hi.
  destruct (lookup_lt_is_Some_2 h i) as [hb Hhb]; [lia|].
  destruct (lookup_lt_is_Some_2 n i) as [nb Hnb]; [lia|].
  exists hb, nb, (byte_xor hb nb).
  repeat split; auto.
  - apply Hin; auto. lia.
  - apply byte_xor_to_N.
Qed.

(** C10. A nonce digest strictly shorter than the header digest makes
    [hashimoto], [hashimotoLight] and [hashimotoFull] panic with an index
    out of range; a nonce digest at least as long makes all three return. *)
Theorem hashimoto_panics_iff_short (h n : list byte) :
  ((length n < length h)%nat ->
     hashimoto h n = Panics IndexOutOfRange
     /\ hashimotoLight h n = Panics IndexOutOfRange
     /\ hashimotoFull h n = Panics IndexOutOfRange)
  /\ ((length h <= length n)%nat ->
     returns (hashimoto h n)
     /\ returns (hashimotoLight h n)
     /\ returns (hashimotoFull h n)).
Proof.
  split.
  - intros Hlt.
    assert (hashimoto h n = Panics IndexOutOfRange) as H.
    { apply hashimoto_loop_panics; rewrite ?length_make_bytes; lia. }
    by repeat split.
  - intros Hle.
    assert (returns (hashimoto h n)) as H.
    { destruct (hashimoto_loop_returns (length h) 0 h n (make_bytes (length h)))
        as (r & Hrun & _); rewrite ?length_make_bytes; try lia.
      by exists r. }
    by repeat split.
Qed.

End Hashimoto.

(** A nonce digest as long as the header digest, for [hashimoto_xor]. *)
Lemma hashimoto_xor_witness :
  exists r,
    hashimoto test_hash test_hash = Return r
    /\ length r = length test_hash
    /\ forall i, (i < length test_hash)%nat ->
         exists hb nb rb,
           test_hash !! i = Some hb /\ test_hash !! i = Some nb /\ r !! i = Some rb
           /\ rb = byte_xor hb nb
           /\ Byte.to_N rb = N.lxor (Byte.to_N hb) (Byte.to_N nb).
Proof. apply (hashimoto_xor test_hash test_hash). simpl. lia. Defined.

Example hashimoto_test_hash_self :
  hashimoto test_hash test_hash = Return (make_bytes 32).
Proof. reflexivity. Qed.

Example hashimoto_short_nonce :
  hashimoto [x01; x02; x03] [xff; x0f] = Panics IndexOutOfRange.
Proof. reflexivity. Qed.

Example hashimoto_long_nonce :
  hashimoto [x01; x02] [xff; x0f; x33] = Return [xfe; x0d].
Proof. reflexivity. Qed.

Section SeedProperties.
Context {K : Keccak}.
Hypothesis keccak_squeeze_length : Keccak_lawful K.

Lemma int_of_uint64_small (x : Z) : 0 <= x < 2 ^ 63 -> int_of_uint64 x = x.
Proof.
  intros Hx. unfold int_of_uint64.
  rewrite Z.mod_small by lia.
  rewrite decide_True by lia. reflexivity.
Qed.

(** The epoch of a [uint64] block number fits an [int]. *)
Lemma epoch_fits_int (block : Z) :
  uint64_range block -> 0 <= block / epochLength < 2 ^ 63.
Proof.
  unfold uint64_range, epochLength. intros Hb.
  change (2 ^ 64) with 18446744073709551616 in Hb.
  change (2 ^ 63) with 9223372036854775808.
  split.
  - apply Z.div_pos; lia.
  - apply Z.div_lt_upper_bound; lia.
Qed.

Lemma length_keccak256_digest (d : list byte) : length (keccak256_digest d) = 32%nat.
Proof. apply keccak_squeeze_length. Qed.

(** One call [keccak256(seed, seed)] on a 32-byte slice leaves the digest
    of the old contents in the slice, whatever state the sponge was in. *)
Lemma hasher_call_seed (rh : sha3_state) (seed : list byte) :
  length seed = 32%nat ->
  exists rh', hasher_call rh seed seed = Return (rh', keccak256_digest seed).
Proof.
  intros Hlen. unfold hasher_call, sha3_Reset, sha3_Write, sha3_Read.
  cbn [squeezed absorbed mbind outcome_bind app].
  rewrite decide_True by (unfold sha3_Size; lia).
  eexists. f_equal. f_equal.
  rewrite (drop_ge seed) by (unfold sha3_Size; lia).
  rewrite app_nil_r. cbn [Nat.add drop].
  rewrite length_take_le by (unfold sha3_Size; lia).
  reflexivity.
Qed.

Lemma seedHash_loop_iter (k : nat) :
  forall (rh : sha3_state) (seed : list byte),
    length seed = 32%nat ->
    seedHash_loop k rh seed = Return (Nat.iter k keccak256_digest seed).
Proof.
  induction k as [|k IH]; intros rh seed Hlen; [reflexivity|].
  cbn [seedHash_loop].
  destruct (hasher_call_seed rh seed Hlen) as [rh' ->].
  cbn [mbind outcome_bind fst snd].
  rewrite IH by apply length_keccak256_digest.
  by rewrite Nat.iter_succ_r.
Qed.

Lemma seedHash_iter (block : Z) :
  uint64_range block ->
  seedHash block
  = Return (Nat.iter (Z.to_nat (block / epochLength)) keccak256_digest (make_bytes 32)).
Proof.
  intros Hb. unfold seedHash.
  destruct (decide (block < epochLength)) as [Hlt|Hge].
  - rewrite Z.div_small by (unfold uint64_range in Hb; lia). reflexivity.
  - cbn [makeHasher].
    rewrite int_of_uint64_small by by apply epoch_fits_int.
    apply seedHash_loop_iter, length_make_bytes.
Qed.

(** C4. For a [uint64] block number [b], [seedHash(b)] returns the result
    of applying Keccak-256 [floor(b/30000)] times to 32 zero bytes, each
    time to the output of the time before; it is 32 zero bytes for
    [b < 30000], and it is the same for two block numbers of one epoch. *)
Theorem seedHash_epoch (b : Z) :
  uint64_range b ->
  seedHash b
    = Return (Nat.iter (Z.to_nat (b / 30000)) keccak256_digest (replicate 32 x00))
  /\ (b < 30000 -> seedHash b = Return (replicate 32 x00))
  /\ (forall b', uint64_range b' -> b / 30000 = b' / 30000 -> seedHash b = seedHash b').
Proof.
  intros Hb. split; [|split].
  - by apply seedHash_iter.
  - intros Hlt. rewrite seedHash_iter by done.
    unfold epochLength. rewrite Z.div_small by (unfold uint64_range in Hb; lia).
    reflexivity.
  - intros b' Hb' Heq. rewrite !seedHash_iter by done.
    unfold epochLength. by rewrite Heq.
Qed.

End SeedProperties.

Lemma echo_squeeze_length : Keccak_lawful echo_Keccak.
Proof.
  intros d n. cbn [keccak_squeeze echo_Keccak].
  unfold echo_squeeze. apply length_take_le.
  cbn [length]. rewrite length_app, length_replicate. lia.
Qed.

Lemma seedHash_epoch_witness :
  seedHash (K := echo_Keccak) 65000
    = Return (Nat.iter (Z.to_nat (65000 / 30000)) (keccak256_digest (K := echo_Keccak))
                (replicate 32 x00))
  /\ (65000 < 30000 -> seedHash (K := echo_Keccak) 65000 = Return (replicate 32 x00))
  /\ (forall b', uint64_range b' -> 65000 / 30000 = b' / 30000 ->
        seedHash (K := echo_Keccak) 65000 = seedHash (K := echo_Keccak) b').
Proof.
  apply (seedHash_epoch (K := echo_Keccak) echo_squeeze_length 65000).
  unfold uint64_range. lia.
Defined.

Example seedHash_first_epoch : seedHash (K := echo_Keccak) 29999 = Return (replicate 32 x00).
Proof. reflexivity. Qed.

Example seedHash_third_epoch :
  seedHash (K := echo_Keccak) 65000 = Return ([x01; x01] ++ replicate 30 x00).
Proof. reflexivity. Qed.

(** ** The engine *)

Lemma Mode_constants_NoDup : NoDup Mode_constants.
Proof.
  unfold Mode_constants. rewrite !NoDup_cons, !elem_of_cons, !elem_of_nil.
  intuition (try discriminate). apply NoDup_nil_2.
Qed.

(** Pairwise different modes taken from the constants are at most five. *)
Lemma Mode_constants_NoDup_length (l : list Mode) :
  NoDup l -> (forall m, m ∈ l -> m ∈ Mode_constants) -> (length l <= 5)%nat.
Proof.
  intros Hl Hsub.
  change 5%nat with (length Mode_constants).
  by apply submseteq_length, NoDup_submseteq.
Qed.

(** A mode is [ModeNormal] or [ModeTest], or it is neither. *)
Lemma Mode_normal_test_dec (m : Mode) :
  (m = ModeNormal \/ m = ModeTest) \/ (m <> ModeNormal /\ m <> ModeTest).
Proof.
  destruct (decide (m = ModeNormal)); [by left; left|].
  destruct (decide (m = ModeTest)); [by left; right|by right].
Qed.

Section EngineProperties.
Context {P : Packages}.

Lemma alloc_fresh (σ : Process) : heap σ !! alloc σ = None.
Proof. unfold alloc. apply not_elem_of_dom, is_fresh. Qed.

Lemma new_Hmhash_lookup (e : Hmhash) (σ : Process) :
  heap (new_Hmhash e σ).2 !! (new_Hmhash e σ).1 = Some e.
Proof. unfold new_Hmhash. cbn. apply lookup_insert_eq. Qed.

Lemma new_Hmhash_trace (e : Hmhash) (σ : Process) :
  trace (new_Hmhash e σ).2 = trace σ.
Proof. reflexivity. Qed.

Lemma new_Hmhash_old (e : Hmhash) (σ : Process) (l : loc) (e' : Hmhash) :
  heap σ !! l = Some e' -> heap (new_Hmhash e σ).2 !! l = Some e'.
Proof.
  intros Hl. unfold new_Hmhash. cbn.
  rewrite lookup_insert_ne; [done|].
  intros <-. rewrite alloc_fresh in Hl. discriminate.
Qed.

Lemma New_unfold (config : Config) (notify : list string) (noverify : bool) (σ : Process) :
  New config notify noverify σ
  = (alloc σ,
     {| heap := <[alloc σ := New_engine config notify noverify σ]> (heap σ);
        sharedHmhash := sharedHmhash σ;
        trace := trace σ ++ [EvStartRemoteSealer (alloc σ) notify noverify] |}).
Proof.
  unfold New, New_engine, startRemoteSealer.
  destruct config as [m nf [lg|]]; reflexivity.
Qed.

Lemma New_lookup (config : Config) (notify : list string) (noverify : bool) (σ : Process) :
  heap (New config notify noverify σ).2 !! (New config notify noverify σ).1
  = Some (New_engine config notify noverify σ).
Proof. rewrite New_unfold. cbn. apply lookup_insert_eq. Qed.

Lemma New_old (config : Config) (notify : list string) (noverify : bool) (σ : Process)
    (l : loc) (e : Hmhash) :
  heap σ !! l = Some e -> heap (New config notify noverify σ).2 !! l = Some e.
Proof.
  intros Hl. rewrite New_unfold. cbn.
  rewrite lookup_insert_ne; [done|].
  intros <-. rewrite alloc_fresh in Hl. discriminate.
Qed.

(** C7. [New] always starts the Remote Sealer: the engine it returns has
    a non-nil remote handle holding the notify list (empty or not) and the
    noverify flag, and the coordinator's start is the one event added.
    [NewFaker], [NewFakeFailer], [NewFakeDelayer] and [NewFullFaker] return
    an engine with a nil remote handle and a nil random source, and add no
    event. *)
Theorem New_starts_remote_fakers_do_not
    (config : Config) (notify : list string) (nv : bool)
    (fail delay : Z) (σ : Process) :
  (exists e r,
      heap (New config notify nv σ).2 !! (New config notify nv σ).1 = Some e
      /\ remote e = Some r
      /\ notifyURLs r = notify
      /\ noverify r = nv
      /\ requestExit r = ChanOpen /\ exitCh r = ChanOpen
      /\ trace (New config notify nv σ).2
         = trace σ ++ [EvStartRemoteSealer (New config notify nv σ).1 notify nv])
  /\ (exists e r,
      heap (New config [] nv σ).2 !! (New config [] nv σ).1 = Some e
      /\ remote e = Some r /\ notifyURLs r = [])
  /\ Forall (fun made : loc * Process =>
        exists e, heap made.2 !! made.1 = Some e
                  /\ remote e = None /\ rand e = None
                  /\ trace made.2 = trace σ)
      [NewFaker σ; NewFakeFailer fail σ; NewFakeDelayer delay σ; NewFullFaker σ].
Proof.
  split; [|split].
  - eexists _, _. split; [apply New_lookup|].
    rewrite New_unfold. by repeat split.
  - eexists _, _. split; [apply New_lookup|]. by split.
  - repeat constructor;
      (eexists; split; [apply new_Hmhash_lookup|by repeat split]).
Qed.

(** *** Hashrate *)

Lemma deref_Some (σ : Process) (l : loc) (e : Hmhash) :
  heap σ !! l = Some e -> deref σ l = Return e.
Proof. unfold deref. by intros ->. Qed.

Lemma Hashrate_other_modes (σ : Process) (l : loc) (e : Hmhash) :
  heap σ !! l = Some e ->
  PowMode (config e) <> ModeNormal -> PowMode (config e) <> ModeTest ->
  Hashrate l σ = Rate1 (hashrate e).
Proof.
  intros Hl Hn Ht. unfold Hashrate. rewrite (deref_Some _ _ _ Hl).
  cbn [mbind outcome_bind]. by rewrite decide_True.
Qed.

Lemma Hashrate_normal_test (σ : Process) (l : loc) (e : Hmhash) :
  heap σ !! l = Some e ->
  PowMode (config e) = ModeNormal \/ PowMode (config e) = ModeTest ->
  Hashrate l σ
  = match remote e with
    | None => Panics NilDereference
    | Some r =>
        match exitCh (remoteSealer_loop r) with
        | ChanClosed => Rate1 (hashrate e)
        | ChanOpen =>
            local ← Rate1 (hashrate e);
            Return (float64_add local (float64_of_uint64 (remoteRate r)))
        end
    end.
Proof.
  intros Hl Hm. unfold Hashrate. rewrite (deref_Some _ _ _ Hl).
  cbn [mbind outcome_bind]. rewrite decide_False; [done|].
  intros [Hn Ht]. tauto.
Qed.

Lemma Hashrate_nil_remote (σ : Process) (l : loc) (e : Hmhash) :
  heap σ !! l = Some e ->
  PowMode (config e) = ModeNormal \/ PowMode (config e) = ModeTest ->
  remote e = None ->
  Hashrate l σ = Panics NilDereference.
Proof. intros Hl Hm Hr. rewrite (Hashrate_normal_test _ _ _ Hl Hm). by rewrite Hr. Qed.

(** C2. The engine [NewShared] returns has the zero [Config], so its
    [PowMode] is [ModeNormal], the constant of value 0, and its remote
    handle is nil; [Hashrate] on it takes the Normal/Test branch and
    panics on the nil handle, although the engine has a shared delegate. *)
Theorem NewShared_Hashrate_panics (σ : Process) :
  exists e,
    heap (NewShared σ).2 !! (NewShared σ).1 = Some e
    /\ config e = Config_zero
    /\ PowMode (config e) = ModeNormal
    /\ Mode_uint (PowMode (config e)) = 0
    /\ remote e = None
    /\ shared e = sharedHmhash σ
    /\ Hashrate (NewShared σ).1 (NewShared σ).2 = Panics NilDereference.
Proof.
  eexists. split; [apply new_Hmhash_lookup|].
  repeat split.
  eapply Hashrate_nil_remote; [apply new_Hmhash_lookup|by left|done].
Qed.

(** What [Hashrate] returns, mode by mode, on an engine with a remote
    handle. *)
Lemma Hashrate_cases (σ : Process) (l : loc) (e : Hmhash) :
  heap σ !! l = Some e ->
  (PowMode (config e) <> ModeNormal -> PowMode (config e) <> ModeTest ->
     Hashrate l σ = Rate1 (hashrate e))
  /\ (PowMode (config e) = ModeNormal \/ PowMode (config e) = ModeTest ->
      forall r, remote e = Some r ->
        (exitCh r = ChanClosed -> Hashrate l σ = Rate1 (hashrate e))
        /\ (exitCh r = ChanOpen -> sealer_wf e ->
            Hashrate l σ
            = (local ← Rate1 (hashrate e);
               Return (float64_add local (float64_of_uint64 (remoteRate r))))
            /\ forall local, Rate1 (hashrate e) = Return local ->
                 Hashrate l σ
                 = Return (float64_add local (float64_of_uint64 (remoteRate r))))).
Proof.
  intros Hl. split; [by apply Hashrate_other_modes|].
  intros Hm r Hr. rewrite (Hashrate_normal_test _ _ _ Hl Hm), Hr.
  split.
  - intros Hc. unfold remoteSealer_loop.
    destruct (requestExit r); cbn; by rewrite ?Hc.
  - intros Ho Hwf. specialize (Hwf r Hr).
    destruct (closeOnce e); destruct Hwf as [Hreq Hex]; [congruence|].
    unfold remoteSealer_loop. rewrite Hreq, Ho.
    split; [done|]. by intros local ->.
Qed.

(** *** Shutdown *)

Lemma Process_eta (σ : Process) :
  {| heap := heap σ; sharedHmhash := sharedHmhash σ; trace := trace σ |} = σ.
Proof. by destruct σ. Qed.

Lemma Hmhash_eta (e : Hmhash) : set_remote_closeOnce e (remote e) (closeOnce e) = e.
Proof. by destruct e. Qed.

Lemma Close_done (σ : Process) (l : loc) (e : Hmhash) :
  heap σ !! l = Some e -> closeOnce e = true ->
  Close l σ = Return (None, σ).
Proof.
  intros Hl Hd. unfold Close, StopRemoteSealer, Once_Do.
  rewrite (deref_Some _ _ _ Hl). cbn [mbind outcome_bind]. rewrite Hd.
  cbn [mbind outcome_bind fst snd].
  rewrite insert_id by done. rewrite app_nil_r. by rewrite Process_eta.
Qed.

Lemma Close_first (σ : Process) (l : loc) (e : Hmhash) :
  heap σ !! l = Some e -> closeOnce e = false -> sealer_wf e ->
  Close l σ
  = Return (None, {| heap := <[l := closed_engine e]> (heap σ);
                     sharedHmhash := sharedHmhash σ;
                     trace := trace σ ++ teardown_events l e |}).
Proof.
  intros Hl Hd Hwf. unfold Close, StopRemoteSealer, Once_Do, stop_func.
  rewrite (deref_Some _ _ _ Hl). cbn [mbind outcome_bind]. rewrite Hd.
  unfold closed_engine, teardown_events.
  destruct (remote e) as [r|] eqn:Hr.
  - specialize (Hwf r Hr). rewrite Hd in Hwf. destruct Hwf as [Hreq Hex].
    rewrite Hreq. cbn. reflexivity.
  - cbn. by rewrite Hr.
Qed.

Lemma Close_times_done (k : nat) (σ : Process) (l : loc) (e : Hmhash) :
  heap σ !! l = Some e -> closeOnce e = true ->
  Close_times k l σ = Return (replicate k None, σ).
Proof.
  intros Hl Hd. induction k as [|k IH]; [reflexivity|].
  cbn [Close_times]. rewrite (Close_done _ _ _ Hl Hd).
  cbn [mbind outcome_bind fst snd]. rewrite IH. reflexivity.
Qed.

Lemma teardowns_app (l : loc) (t u : list event) :
  teardowns l (t ++ u) = (teardowns l t + teardowns l u)%nat.
Proof. unfold teardowns. by rewrite filter_app, length_app. Qed.

Lemma teardowns_teardown_events (l : loc) (e : Hmhash) :
  teardowns l (teardown_events l e) = match remote e with Some _ => 1%nat | None => 0%nat end.
Proof.
  unfold teardowns, teardown_events. destruct (remote e); [|reflexivity].
  rewrite filter_cons_True by done. by rewrite filter_cons_False.
Qed.

(** [k] calls of [Close] in a row on an engine whose coordinator runs as
    long as the teardown has not. *)
Lemma Close_times_spec (k : nat) (σ : Process) (l : loc) (e : Hmhash) :
  heap σ !! l = Some e -> sealer_wf e ->
  exists σ',
    Close_times k l σ = Return (replicate k None, σ')
    /\ trace σ'
       = trace σ ++ (if decide (k <> 0%nat /\ closeOnce e = false)
                     then teardown_events l e else [])
    /\ (teardowns l (trace σ') <= teardowns l (trace σ) + 1)%nat
    /\ (remote e = None ->
        trace σ' = trace σ
        /\ exists done, heap σ' = <[l := set_remote_closeOnce e None done]> (heap σ))
    /\ Close l σ = StopRemoteSealer l σ.
Proof.
  intros Hl Hwf.
  destruct k as [|k].
  - exists σ. cbn [Close_times]. rewrite decide_False by tauto.
    rewrite app_nil_r. split_and!; [done|done|lia| |done].
    intros Hr. split; [done|]. exists (closeOnce e).
    rewrite <- Hr, Hmhash_eta. by rewrite insert_id.
  - destruct (closeOnce e) eqn:Hd.
    + exists σ. rewrite (Close_times_done _ _ _ _ Hl Hd).
      rewrite decide_False by (intros [_ ?]; discriminate).
      rewrite app_nil_r. split_and!; [done|done|lia| |done].
      intros Hr. split; [done|]. exists true.
      rewrite <- Hr, <- Hd, Hmhash_eta. by rewrite insert_id.
    + eexists. cbn [Close_times]. rewrite (Close_first _ _ _ Hl Hd Hwf).
      cbn [mbind outcome_bind fst snd].
      erewrite Close_times_done;
        [|cbn [heap]; apply lookup_insert_eq|reflexivity].
      cbn [mbind outcome_bind fst snd trace heap].
      rewrite decide_True by done.
      split_and!; [reflexivity|reflexivity| | |
                   symmetry; apply (Close_first _ _ _ Hl Hd Hwf)].
      * cbn [trace]. rewrite teardowns_app, teardowns_teardown_events.
        destruct (remote e); lia.
      * intros Hr. cbn [trace heap]. split.
        -- unfold teardown_events. rewrite Hr. by rewrite app_nil_r.
        -- exists true. unfold closed_engine. by rewrite Hr.
Qed.

(** *** Threads *)

Lemma Threads_lookup (σ : Process) (l : loc) (e : Hmhash) :
  heap σ !! l = Some e -> Threads l σ = Return (threads e).
Proof. intros Hl. unfold Threads. by rewrite (deref_Some _ _ _ Hl). Qed.

Lemma SetThreads_fuel_local (fuel : nat) (σ : Process) (l : loc) (e : Hmhash) (n : Z) :
  heap σ !! l = Some e -> shared e = None ->
  SetThreads_fuel (S fuel) l n σ = Return (threads_set l e n σ).
Proof.
  intros Hl Hs. cbn [SetThreads_fuel]. rewrite (deref_Some _ _ _ Hl).
  cbn [mbind outcome_bind]. rewrite Hs. unfold threads_set.
  by destruct (ping_update l (update e)).
Qed.

Lemma SetThreads_local (σ : Process) (l : loc) (e : Hmhash) (n : Z) :
  heap σ !! l = Some e -> shared e = None ->
  SetThreads l n σ = Return (threads_set l e n σ).
Proof. intros Hl Hs. by apply SetThreads_fuel_local. Qed.

Lemma heap_size_pos (σ : Process) (l : loc) (e : Hmhash) :
  heap σ !! l = Some e -> exists k, size (heap σ) = S k.
Proof.
  intros Hl. destruct (size (heap σ)) as [|k] eqn:Hsz; [|by exists k].
  apply map_size_empty_inv in Hsz. rewrite Hsz in Hl.
  by rewrite lookup_empty in Hl.
Qed.

Lemma SetThreads_shared (σ : Process) (l s : loc) (e es : Hmhash) (n : Z) :
  heap σ !! l = Some e -> shared e = Some s ->
  heap σ !! s = Some es -> shared es = None ->
  SetThreads l n σ = Return (threads_set s es n σ).
Proof.
  intros Hl Hs Hls Hss. unfold SetThreads.
  destruct (heap_size_pos _ _ _ Hl) as [k ->].
  cbn [SetThreads_fuel]. rewrite (deref_Some _ _ _ Hl).
  cbn [mbind outcome_bind]. rewrite Hs.
  by apply SetThreads_fuel_local.
Qed.

Lemma threads_set_lookup (σ : Process) (l : loc) (e : Hmhash) (n : Z) :
  Threads l (threads_set l e n σ) = Return n.
Proof.
  erewrite Threads_lookup; [|unfold threads_set; cbn [heap]; apply lookup_insert_eq].
  reflexivity.
Qed.

Lemma threads_set_other (σ : Process) (l l' : loc) (e e' : Hmhash) (n : Z) :
  l <> l' -> heap σ !! l' = Some e' ->
  Threads l' (threads_set l e n σ) = Return (threads e').
Proof.
  intros Hne Hl'. apply Threads_lookup. unfold threads_set. cbn [heap].
  by rewrite lookup_insert_ne.
Qed.


(** *** The invariant of the reachable states *)

Lemma shared_wf_None (h : gmap loc Hmhash) : shared_wf h None.
Proof. intros s Hs. discriminate. Qed.

Lemma shared_wf_insert (h : gmap loc Hmhash) (o : option loc) (l : loc) (e' : Hmhash) :
  shared_wf h o ->
  (forall es, h !! l = Some es -> shared es = None -> shared e' = None) ->
  shared_wf (<[l := e']> h) o.
Proof.
  intros Hwf Hkeep s Hs. destruct (Hwf s Hs) as (es & Hes & Hnone).
  destruct (decide (l = s)) as [->|Hne].
  - exists e'. rewrite lookup_insert_eq. split; [done|]. by eapply Hkeep.
  - exists es. by rewrite lookup_insert_ne.
Qed.

Lemma Process_wf_insert (σ : Process) (l : loc) (e' : Hmhash) (t : list event) :
  Process_wf σ ->
  sealer_wf e' ->
  shared_wf (heap σ) (shared e') ->
  (forall es, heap σ !! l = Some es -> shared es = None -> shared e' = None) ->
  Process_wf {| heap := <[l := e']> (heap σ); sharedHmhash := sharedHmhash σ;
                trace := t |}.
Proof.
  intros [Hsh Hall] Hse Hshe Hkeep. split; cbn [heap sharedHmhash].
  - by apply shared_wf_insert.
  - intros l0 e0 Hl0. destruct (decide (l = l0)) as [->|Hne].
    + rewrite lookup_insert_eq in Hl0. injection Hl0 as <-.
      split; [done|]. by apply shared_wf_insert.
    + rewrite lookup_insert_ne in Hl0 by done.
      destruct (Hall l0 e0 Hl0) as [Hs0 Hsh0].
      split; [done|]. by apply shared_wf_insert.
Qed.

Lemma Process_wf_alloc (σ : Process) (e' : Hmhash) (t : list event) :
  Process_wf σ ->
  sealer_wf e' ->
  shared_wf (heap σ) (shared e') ->
  Process_wf {| heap := <[alloc σ := e']> (heap σ); sharedHmhash := sharedHmhash σ;
                trace := t |}.
Proof.
  intros Hwf Hse Hsh. apply Process_wf_insert; try done.
  intros es Hes. rewrite alloc_fresh in Hes. discriminate.
Qed.

Lemma Process_start_wf : Process_wf Process_start.
Proof.
  split; cbn.
  - apply shared_wf_None.
  - intros l e Hl. by rewrite lookup_empty in Hl.
Qed.

Lemma New_engine_sealer_wf (config : Config) (notify : list string) (nv : bool)
    (σ : Process) :
  sealer_wf (New_engine config notify nv σ).
Proof. intros r Hr. cbn in Hr. injection Hr as <-. cbn. done. Qed.

Lemma New_wf (config : Config) (notify : list string) (nv : bool) (σ : Process) :
  Process_wf σ -> Process_wf (New config notify nv σ).2.
Proof.
  intros Hwf. rewrite New_unfold. cbn [snd].
  apply Process_wf_alloc; [done|apply New_engine_sealer_wf|].
  cbn [shared New_engine]. case_decide; [apply Hwf|apply shared_wf_None].
Qed.

Lemma new_Hmhash_wf (e : Hmhash) (σ : Process) :
  Process_wf σ -> remote e = None ->
  shared e = None \/ shared e = sharedHmhash σ ->
  Process_wf (new_Hmhash e σ).2.
Proof.
  intros Hwf Hr Hs. unfold new_Hmhash. cbn [snd].
  apply Process_wf_alloc; [done| |].
  - intros r Hr'. congruence.
  - destruct Hs as [->| ->]; [apply shared_wf_None|apply Hwf].
Qed.

Lemma init_wf : Process_wf (init Process_start).
Proof.
  unfold init. rewrite New_unfold.
  pose proof (New_wf {| PowMode := ModeNormal; NotifyFull := false; Log := None |}
                [] false Process_start Process_start_wf) as [_ Hall].
  rewrite New_unfold in Hall. cbn [snd heap] in Hall.
  split; cbn [heap sharedHmhash]; [|exact Hall].
  intros s Hs. injection Hs as <-. eexists.
  split; [apply lookup_insert_eq|]. reflexivity.
Qed.


Lemma threads_set_wf (σ : Process) (l : loc) (e : Hmhash) (n : Z) :
  Process_wf σ -> heap σ !! l = Some e -> shared e = None ->
  Process_wf (threads_set l e n σ).
Proof.
  intros Hwf Hl Hs. unfold threads_set.
  destruct (proj2 Hwf l e Hl) as [Hse Hsh].
  apply Process_wf_insert; [done| | |done].
  - intros r Hr. exact (Hse r Hr).
  - cbn [shared set_threads_update]. by rewrite Hs; apply shared_wf_None.
Qed.

(** On a well-formed process [SetThreads] returns whenever the engine
    exists, and what it changes is the count of a non-delegating engine. *)
Lemma SetThreads_wf_returns (σ : Process) (l : loc) (e : Hmhash) (n : Z) :
  Process_wf σ -> heap σ !! l = Some e ->
  exists l0 e0,
    heap σ !! l0 = Some e0 /\ shared e0 = None
    /\ SetThreads l n σ = Return (threads_set l0 e0 n σ).
Proof.
  intros Hwf Hl. destruct (shared e) as [s|] eqn:Hs.
  - destruct (proj2 Hwf l e Hl) as [_ Hsh].
    destruct (Hsh s Hs) as (es & Hes & Hnone).
    exists s, es. split_and!; [done|done|]. by eapply SetThreads_shared.
  - exists l, e. split_and!; [done|done|]. by apply SetThreads_local.
Qed.

Lemma SetThreads_wf (σ σ' : Process) (l : loc) (n : Z) :
  Process_wf σ -> SetThreads l n σ = Return σ' -> Process_wf σ'.
Proof.
  intros Hwf Hrun. destruct (heap σ !! l) as [e|] eqn:Hl.
  - destruct (SetThreads_wf_returns σ l e n Hwf Hl) as (l0 & e0 & Hl0 & Hs0 & Heq).
    rewrite Heq in Hrun. injection Hrun as <-. by apply threads_set_wf.
  - unfold SetThreads in Hrun. cbn [SetThreads_fuel] in Hrun.
    unfold deref in Hrun. rewrite Hl in Hrun. discriminate.
Qed.

Lemma closed_engine_sealer_wf (e : Hmhash) : sealer_wf (closed_engine e).
Proof.
  intros r Hr. unfold closed_engine in *. cbn in *.
  destruct (remote e); [|discriminate]. injection Hr as <-. done.
Qed.

Lemma Close_wf (σ σ' : Process) (l : loc) (err : error) :
  Process_wf σ -> Close l σ = Return (err, σ') -> Process_wf σ'.
Proof.
  intros Hwf Hrun. destruct (heap σ !! l) as [e|] eqn:Hl.
  - destruct (proj2 Hwf l e Hl) as [Hse Hsh].
    destruct (closeOnce e) eqn:Hd.
    + rewrite (Close_done _ _ _ Hl Hd) in Hrun. by injection Hrun as _ <-.
    + rewrite (Close_first _ _ _ Hl Hd Hse) in Hrun. injection Hrun as _ <-.
      apply Process_wf_insert; [done|apply closed_engine_sealer_wf|done|].
      intros es Hes Hnone. cbn. congruence.
  - unfold Close, StopRemoteSealer, deref in Hrun. rewrite Hl in Hrun. discriminate.
Qed.

Lemma report_rate_wf (σ : Process) (l : loc) (rate : Z) :
  Process_wf σ -> Process_wf (report_rate l rate σ).
Proof.
  intros Hwf. unfold report_rate.
  destruct (heap σ !! l) as [e|] eqn:Hl; [|done].
  destruct (remote e) as [r|] eqn:Hr; [|done].
  destruct (exitCh r) eqn:Hex; [|done].
  destruct (proj2 Hwf l e Hl) as [Hse Hsh].
  apply Process_wf_insert; [done| |done|].
  - intros r' Hr'. cbn in Hr'. injection Hr' as <-. cbn.
    specialize (Hse r Hr). by rewrite Hex in Hse.
  - intros es Hes Hnone. cbn. congruence.
Qed.

(** Every state the operations lead to from process start is well formed. *)
Lemma reachable_wf (σ : Process) : reachable σ -> Process_wf σ.
Proof.
  induction 1 as [ | | | | | | | | l n σ σ' _ IH Hrun | l err σ σ' _ IH Hrun | ].
  - apply init_wf.
  - by apply New_wf.
  - by apply New_wf.
  - apply new_Hmhash_wf; auto.
  - apply new_Hmhash_wf; auto.
  - apply new_Hmhash_wf; auto.
  - apply new_Hmhash_wf; auto.
  - apply new_Hmhash_wf; auto.
  - by eapply SetThreads_wf.
  - by eapply Close_wf.
  - by apply report_rate_wf.
Qed.

(** *** Delegation to the singleton *)





(** *** The reachable states *)




(** X19. [Hashrate] by mode, on engines with a remote handle. In every
    reachable process: on an engine whose mode is neither Normal nor Test
    the outcome of [Hashrate] is the outcome of [Rate1] on its meter, a rate
    or the meter's panic. On an engine in Normal or Test mode with a non-nil
    remote handle it is that same outcome, without blocking, when the exit
    channel is closed, and otherwise the meter's rate plus the aggregate
    obtained from the Remote Sealer. *)
Theorem Hashrate_by_mode (σ : Process) (l : loc) (e : Hmhash) :
  reachable σ -> heap σ !! l = Some e ->
  (PowMode (config e) <> ModeNormal -> PowMode (config e) <> ModeTest ->
     Hashrate l σ = Rate1 (hashrate e))
  /\ (PowMode (config e) = ModeNormal \/ PowMode (config e) = ModeTest ->
      forall r, remote e = Some r ->
        (exitCh r = ChanClosed -> Hashrate l σ = Rate1 (hashrate e))
        /\ (exitCh r <> ChanClosed ->
            Hashrate l σ
            = (local ← Rate1 (hashrate e);
               Return (float64_add local (float64_of_uint64 (remoteRate r))))
            /\ forall local, Rate1 (hashrate e) = Return local ->
                 Hashrate l σ
                 = Return (float64_add local (float64_of_uint64 (remoteRate r))))).
Proof.
  intros Hreach Hl.
  destruct (proj2 (reachable_wf σ Hreach) l e Hl) as [Hse _].
  destruct (Hashrate_cases σ l e Hl) as [H1 H2].
  split; [exact H1|]. intros Hm r Hr.
  destruct (H2 Hm r Hr) as [Hc Ho]. split; [exact Hc|].
  intros Hopen. apply Ho; [|exact Hse]. by destruct (exitCh r).
Qed.

(** C5. Where the claim has [Hashrate] return, the code panics on a nil
    field. The engine of [NewShared()] is in [ModeNormal], the zero mode,
    and has a nil remote handle: [Hashrate] skips the short circuit and
    panics on [hmhash.remote.fetchRateCh], in every process state, while
    [StopRemoteSealer] on the same engine tests [hmhash.remote == nil] and
    returns nil. The engines of [NewFaker], [NewFakeFailer],
    [NewFakeDelayer] and [NewFullFaker] are in a mode that is neither
    Normal nor Test and have a nil meter: [Hashrate] takes the short
    circuit and panics on [hmhash.hashrate.Rate1()]. *)
Theorem Hashrate_panics_on_nil_fields (σ : Process) (fail delay : Z) :
  (exists e,
     heap (NewShared σ).2 !! (NewShared σ).1 = Some e
     /\ PowMode (config e) = ModeNormal
     /\ remote e = None
     /\ Hashrate (NewShared σ).1 (NewShared σ).2 = Panics NilDereference
     /\ ~ returns (Hashrate (NewShared σ).1 (NewShared σ).2)
     /\ exists σ',
          StopRemoteSealer (NewShared σ).1 (NewShared σ).2 = Return (None, σ'))
  /\ (nil_Meter_panics P ->
      Forall (fun made : loc * Process =>
          exists e,
            heap made.2 !! made.1 = Some e
            /\ PowMode (config e) <> ModeNormal
            /\ PowMode (config e) <> ModeTest
            /\ hashrate e = Meter_zero
            /\ Hashrate made.1 made.2 = Panics NilDereference
            /\ ~ returns (Hashrate made.1 made.2))
        [NewFaker σ; NewFakeFailer fail σ; NewFakeDelayer delay σ; NewFullFaker σ]).
Proof.
  split.
  - eexists. split; [apply new_Hmhash_lookup|].
    assert (Hp : Hashrate (NewShared σ).1 (NewShared σ).2 = Panics NilDereference).
    { eapply Hashrate_nil_remote; [apply new_Hmhash_lookup|by left|done]. }
    split_and!; [done|done|exact Hp| |].
    + intros [v Hv]. rewrite Hp in Hv. discriminate.
    + eexists. eapply (Close_first (NewShared σ).2 (NewShared σ).1);
        [apply new_Hmhash_lookup|done|intros r Hr; discriminate].
  - intros Hnil.
    assert (Hfake : forall e0 : Hmhash,
               PowMode (config e0) <> ModeNormal -> PowMode (config e0) <> ModeTest ->
               hashrate e0 = Meter_zero ->
               exists e,
                 heap (new_Hmhash e0 σ).2 !! (new_Hmhash e0 σ).1 = Some e
                 /\ PowMode (config e) <> ModeNormal
                 /\ PowMode (config e) <> ModeTest
                 /\ hashrate e = Meter_zero
                 /\ Hashrate (new_Hmhash e0 σ).1 (new_Hmhash e0 σ).2
                    = Panics NilDereference
                 /\ ~ returns (Hashrate (new_Hmhash e0 σ).1 (new_Hmhash e0 σ).2)).
    { intros e0 Hn Ht Hm. exists e0.
      assert (Hp : Hashrate (new_Hmhash e0 σ).1 (new_Hmhash e0 σ).2
                   = Panics NilDereference).
      { rewrite (Hashrate_other_modes _ _ e0 (new_Hmhash_lookup e0 σ) Hn Ht).
        by rewrite Hm. }
      split_and!; [apply new_Hmhash_lookup|done|done|done|exact Hp|].
      intros [v Hv]. rewrite Hp in Hv. discriminate. }
    repeat (apply List.Forall_cons; [|]); [..|apply List.Forall_nil];
      apply Hfake; done.
Qed.

(** C6. In every reachable process, any number [k] of calls of [Close] on
    an engine all return a nil error; over the [k] calls the teardown
    (closing the exit-request channel, waiting for the confirmation) runs
    once if [k > 0], the once-flag was not set and the remote handle is
    non-nil, and not at all otherwise, so at most once; with a nil remote
    handle no event happens and the engine only has its once-flag set.
    [Close] is [StopRemoteSealer]. *)
Theorem Close_at_most_once (k : nat) (σ : Process) (l : loc) (e : Hmhash) :
  reachable σ -> heap σ !! l = Some e ->
  exists σ',
    Close_times k l σ = Return (replicate k None, σ')
    /\ trace σ'
       = trace σ ++ (if decide (k <> 0%nat /\ closeOnce e = false)
                     then teardown_events l e else [])
    /\ (teardowns l (trace σ') <= teardowns l (trace σ) + 1)%nat
    /\ (remote e = None ->
        trace σ' = trace σ
        /\ exists done, heap σ' = <[l := set_remote_closeOnce e None done]> (heap σ))
    /\ Close l σ = StopRemoteSealer l σ.
Proof.
  intros Hreach Hl. apply Close_times_spec; [exact Hl|].
  by destruct (proj2 (reachable_wf σ Hreach) l e Hl).
Qed.

(** C9, as amended. [Mode] is an unsigned integer type, and its const
    block declares exactly five modes: [ModeNormal], [ModeShared],
    [ModeTest], [ModeFake] and [ModeFullFake], pairwise different, with
    the values 0 to 4. Failing at one block and delaying are not modes: the
    engines of [NewFakeFailer] and [NewFakeDelayer] are in [ModeFake] and
    carry the block number and the delay in fields of their own. Every
    constructor that takes no [Config] builds an engine in one of the five
    modes. The type itself is not closed: [New] stores the mode its
    [Config] carries whatever its value, and when that is none of the five
    constants the engine has no delegate and [Hashrate] reads its meter
    alone. *)
Theorem Mode_five_constants :
  Mode_uint <$> Mode_constants = [0; 1; 2; 3; 4]
  /\ NoDup Mode_constants
  /\ length Mode_constants = 5%nat
  /\ (forall (fail delay : Z) (σ : Process),
        exists ef ed,
          heap (NewFakeFailer fail σ).2 !! (NewFakeFailer fail σ).1 = Some ef
          /\ PowMode (config ef) = ModeFake /\ fakeFail ef = fail
          /\ heap (NewFakeDelayer delay σ).2 !! (NewFakeDelayer delay σ).1 = Some ed
          /\ PowMode (config ed) = ModeFake /\ fakeDelay ed = delay)
  /\ (forall (notify : list string) (nv : bool) (fail delay : Z) (σ : Process),
        Forall2 (fun (made : loc * Process) (m : Mode) =>
            m ∈ Mode_constants
            /\ exists e, heap made.2 !! made.1 = Some e /\ PowMode (config e) = m)
          [NewTester notify nv σ; NewFaker σ; NewFakeFailer fail σ;
           NewFakeDelayer delay σ; NewFullFaker σ; NewShared σ]
          [ModeTest; ModeFake; ModeFake; ModeFake; ModeFullFake; ModeNormal])
  /\ (forall (cfg : Config) (notify : list string) (nv : bool) (σ : Process),
        exists e,
          heap (New cfg notify nv σ).2 !! (New cfg notify nv σ).1 = Some e
          /\ PowMode (config e) = PowMode cfg
          /\ (PowMode cfg ∉ Mode_constants ->
              shared e = None
              /\ Hashrate (New cfg notify nv σ).1 (New cfg notify nv σ).2
                 = Rate1 (hashrate e))).
Proof.
  split_and!; [done|apply Mode_constants_NoDup|done| | |].
  - intros fail delay σ. eexists _, _.
    split_and!; [apply new_Hmhash_lookup|done|done|apply new_Hmhash_lookup|done|done].
  - intros notify nv fail delay σ.
    repeat (apply List.Forall2_cons; [|]); [..|apply List.Forall2_nil];
      (split; [unfold Mode_constants; rewrite !elem_of_cons; auto 10|]);
      eexists; (split; [first [apply New_lookup|apply new_Hmhash_lookup]|done]).
  - intros cfg notify nv σ. eexists. split; [apply New_lookup|]. split; [done|].
    intros Hout. unfold Mode_constants in Hout.
    rewrite !not_elem_of_cons in Hout.
    destruct Hout as (Hn & Hs & Ht & _).
    split.
    + cbn [shared New_engine]. by rewrite decide_False.
    + by apply (Hashrate_other_modes _ _ _ (New_lookup cfg notify nv σ)).
Qed.

End EngineProperties.

(** ** The process after [init] *)

Lemma sample_singleton_lookup :
  heap sample_start !! sample_singleton = Some sample_singleton_engine.
Proof.
  unfold sample_start, init. rewrite New_unfold. cbn [heap].
  apply lookup_insert_eq.
Qed.

Lemma sample_sharedHmhash : sharedHmhash sample_start = Some sample_singleton.
Proof. unfold sample_start, init. by rewrite New_unfold. Qed.


Lemma sample_start_reachable : reachable sample_start.
Proof. constructor. Qed.

Example sample_threads_scenario :
  exists l σ1 σ2,
    NewTester (P := sample_Packages) [] false sample_start = (l, σ1)
    /\ SetThreads l 4 σ1 = Return σ2
    /\ Threads l σ2 = Return 4.
Proof.
  eexists _, _, _. split; [reflexivity|].
  unfold NewTester. split.
  - eapply SetThreads_local; [apply New_lookup|].
    cbn [shared New_engine PowMode]. by rewrite decide_False.
  - apply threads_set_lookup.
Qed.



(** X19: the singleton of the process after [init]. *)
Lemma Hashrate_by_mode_witness :
  (PowMode (config sample_singleton_engine) <> ModeNormal ->
   PowMode (config sample_singleton_engine) <> ModeTest ->
     Hashrate sample_singleton sample_start = Rate1 (hashrate sample_singleton_engine))
  /\ (PowMode (config sample_singleton_engine) = ModeNormal
      \/ PowMode (config sample_singleton_engine) = ModeTest ->
      forall r, remote sample_singleton_engine = Some r ->
        (exitCh r = ChanClosed ->
           Hashrate sample_singleton sample_start
           = Rate1 (hashrate sample_singleton_engine))
        /\ (exitCh r <> ChanClosed ->
            Hashrate sample_singleton sample_start
            = (local ← Rate1 (hashrate sample_singleton_engine);
               Return (float64_add local (float64_of_uint64 (remoteRate r))))
            /\ forall local, Rate1 (hashrate sample_singleton_engine) = Return local ->
                 Hashrate sample_singleton sample_start
                 = Return (float64_add local (float64_of_uint64 (remoteRate r))))).
Proof.
  exact (Hashrate_by_mode sample_start sample_singleton sample_singleton_engine
           sample_start_reachable sample_singleton_lookup).
Defined.

Example Hashrate_sample_running :
  Hashrate sample_singleton (report_rate sample_singleton 500 sample_start) = Return 500.
Proof. vm_compute. reflexivity. Qed.

Example Hashrate_sample_stopped :
  exists σ',
    Close sample_singleton (report_rate sample_singleton 500 sample_start)
    = Return (None, σ')
    /\ Hashrate sample_singleton σ' = Return 0.
Proof. eexists. split; vm_compute; reflexivity. Qed.

(** C5: [NewShared()] and the four fakers in the process after [init]. *)
Lemma Hashrate_panics_on_nil_fields_witness :
  (exists e,
     heap (NewShared sample_start).2 !! (NewShared sample_start).1 = Some e
     /\ PowMode (config e) = ModeNormal
     /\ remote e = None
     /\ Hashrate (NewShared sample_start).1 (NewShared sample_start).2
        = Panics NilDereference
     /\ ~ returns (Hashrate (NewShared sample_start).1 (NewShared sample_start).2)
     /\ exists σ',
          StopRemoteSealer (NewShared sample_start).1 (NewShared sample_start).2
          = Return (None, σ'))
  /\ Forall (fun made : loc * Process (P := sample_Packages) =>
        exists e,
          heap made.2 !! made.1 = Some e
          /\ PowMode (config e) <> ModeNormal
          /\ PowMode (config e) <> ModeTest
          /\ hashrate e = Meter_zero
          /\ Hashrate made.1 made.2 = Panics NilDereference
          /\ ~ returns (Hashrate made.1 made.2))
      [NewFaker sample_start; NewFakeFailer 7 sample_start;
       NewFakeDelayer 3 sample_start; NewFullFaker sample_start].
Proof.
  split.
  - exact (proj1 (Hashrate_panics_on_nil_fields sample_start 7 3)).
  - apply (proj2 (Hashrate_panics_on_nil_fields sample_start 7 3)). reflexivity.
Defined.

Example Hashrate_sample_nil_fields :
  Hashrate sample_NewShared.1 sample_NewShared.2 = Panics NilDereference
  /\ Hashrate (NewFaker sample_start).1 (NewFaker sample_start).2
     = Panics NilDereference
  /\ exists σ', Close sample_NewShared.1 sample_NewShared.2 = Return (None, σ').
Proof. split_and!; [vm_compute; reflexivity..|]. eexists. vm_compute. reflexivity. Qed.

(** C6: three calls of [Close] on the singleton of the process after
    [init]. *)
Lemma Close_at_most_once_witness :
  exists σ',
    Close_times 3 sample_singleton sample_start = Return (replicate 3 None, σ')
    /\ trace σ'
       = trace sample_start
         ++ (if decide (3%nat <> 0%nat /\ closeOnce sample_singleton_engine = false)
             then teardown_events sample_singleton sample_singleton_engine else [])
    /\ (teardowns sample_singleton (trace σ')
        <= teardowns sample_singleton (trace sample_start) + 1)%nat
    /\ (remote sample_singleton_engine = None ->
        trace σ' = trace sample_start
        /\ exists done,
             heap σ'
             = <[sample_singleton := set_remote_closeOnce sample_singleton_engine None done]>
                 (heap sample_start))
    /\ Close sample_singleton sample_start = StopRemoteSealer sample_singleton sample_start.
Proof.
  exact (Close_at_most_once 3 sample_start sample_singleton sample_singleton_engine
           sample_start_reachable sample_singleton_lookup).
Defined.

(** C9 as stated fails: the const block does not hold seven pairwise
    different modes. *)
Lemma Mode_seven_variants_counterexample :
  ~ exists l : list Mode,
      NoDup l /\ length l = 7%nat /\ forall m, m ∈ l -> m ∈ Mode_constants.
Proof.
  intros (l & Hnd & Hlen & Hsub).
  pose proof (Mode_constants_NoDup_length l Hnd Hsub). lia.
Qed.

(** C10: a nonce digest of two bytes against a header digest of three, and
    one of three bytes against a header digest of two. *)
Lemma hashimoto_panics_iff_short_witness :
  (hashimoto [x01; x02; x03] [xff; x0f] = Panics IndexOutOfRange
   /\ hashimotoLight [x01; x02; x03] [xff; x0f] = Panics IndexOutOfRange
   /\ hashimotoFull [x01; x02; x03] [xff; x0f] = Panics IndexOutOfRange)
  /\ (returns (hashimoto [x01; x02] [xff; x0f; x33])
      /\ returns (hashimotoLight [x01; x02] [xff; x0f; x33])
      /\ returns (hashimotoFull [x01; x02] [xff; x0f; x33])).
Proof.
  split.
  - apply (proj1 (hashimoto_panics_iff_short [x01; x02; x03] [xff; x0f])).
    simpl. lia.
  - apply (proj2 (hashimoto_panics_iff_short [x01; x02] [xff; x0f; x33])).
    simpl. lia.
Defined.


(** * Further properties *)

(** ** hashimoto as a byte-wise XOR *)

Lemma byte_to_N_inj (a b : byte) : Byte.to_N a = Byte.to_N b -> a = b.
Proof.
  intros H. pose proof (Byte.of_to_N a) as Ha. pose proof (Byte.of_to_N b) as Hb.
  rewrite H in Ha. congruence.
Qed.

Lemma byte_xor_comm (a b : byte) : byte_xor a b = byte_xor b a.
Proof. apply byte_to_N_inj. rewrite !byte_xor_to_N. apply N.lxor_comm. Qed.

Lemma byte_xor_cancel (a b : byte) : byte_xor a (byte_xor a b) = b.
Proof.
  apply byte_to_N_inj. rewrite !byte_xor_to_N.
  by rewrite <- N.lxor_assoc, N.lxor_nilpotent, N.lxor_0_l.
Qed.

Lemma byte_xor_diag (a : byte) : byte_xor a a = x00.
Proof. apply byte_to_N_inj. rewrite byte_xor_to_N. by rewrite N.lxor_nilpotent. Qed.

Lemma byte_xor_x00 (a : byte) : byte_xor a x00 = a.
Proof. apply byte_to_N_inj. rewrite byte_xor_to_N. apply N.lxor_0_r. Qed.

(** When it returns, [hashimoto] returns the XOR of the two slices zipped. *)
Lemma hashimoto_zip_with (h n : list byte) :
  (length h <= length n)%nat -> hashimoto h n = Return (zip_with byte_xor h n).
Proof.
  intros Hlen.
  destruct (hashimoto_loop_returns (length h) 0 h n (make_bytes (length h)))
    as (r & Hrun & Hr & _ & Hin); rewrite ?length_make_bytes; try lia.
  unfold hashimoto. cbn zeta. rewrite Hrun. f_equal.
  rewrite length_make_bytes in Hr.
  apply list_eq. intros i. rewrite lookup_zip_with.
  destruct (decide (i < length h)%nat) as [Hi|Hi].
  - destruct (lookup_lt_is_Some_2 h i) as [hb Hhb]; [lia|].
    destruct (lookup_lt_is_Some_2 n i) as [nb Hnb]; [lia|].
    rewrite Hhb, Hnb. cbn. apply Hin; auto. lia.
  - rewrite (lookup_ge_None_2 r) by lia.
    by rewrite (lookup_ge_None_2 h) by lia.
Qed.

Lemma hashimoto_Return_length (h n r : list byte) :
  hashimoto h n = Return r -> (length h <= length n)%nat.
Proof.
  intros Hrun. destruct (decide (length h <= length n)%nat) as [|Hlt]; [done|].
  unfold hashimoto in Hrun. cbn zeta in Hrun.
  rewrite hashimoto_loop_panics in Hrun; rewrite ?length_make_bytes; try lia.
  discriminate.
Qed.

Lemma zip_with_xor_cancel (h : list byte) :
  forall n, zip_with byte_xor h (zip_with byte_xor h n) = take (length h) n.
Proof.
  induction h as [|a h IH]; intros [|b n]; cbn; try done.
  by rewrite byte_xor_cancel, IH.
Qed.

Lemma zip_with_xor_comm (h : list byte) :
  forall n, zip_with byte_xor h n = zip_with byte_xor n h.
Proof.
  induction h as [|a h IH]; intros [|b n]; cbn; try done.
  by rewrite byte_xor_comm, IH.
Qed.

(** X1. [hashimoto] undoes itself: when [hashimoto(h, n)] returns [r], then
    [hashimoto(h, r)] returns the first [len(h)] bytes of [n]. *)
Theorem hashimoto_round_trip (h n r : list byte) :
  hashimoto h n = Return r ->
  length r = length h /\ hashimoto h r = Return (take (length h) n).
Proof.
  intros Hrun. pose proof (hashimoto_Return_length _ _ _ Hrun) as Hlen.
  rewrite hashimoto_zip_with in Hrun by done. injection Hrun as <-.
  assert (Hr : length (zip_with byte_xor h n) = length h).
  { rewrite length_zip_with. lia. }
  split; [exact Hr|].
  rewrite hashimoto_zip_with by lia. by rewrite zip_with_xor_cancel.
Qed.

Lemma hashimoto_round_trip_witness :
  length [xfe; x0d] = length [x01; x02]
  /\ hashimoto [x01; x02] [xfe; x0d] = Return (take (length [x01; x02]) [xff; x0f; x33]).
Proof. apply (hashimoto_round_trip [x01; x02] [xff; x0f; x33] [xfe; x0d]). reflexivity. Defined.

(** X2. On slices of one length [hashimoto] is symmetric in its two
    arguments. *)
Theorem hashimoto_comm (h n : list byte) :
  length h = length n -> hashimoto h n = hashimoto n h.
Proof.
  intros Hlen. rewrite !hashimoto_zip_with by lia. f_equal. apply zip_with_xor_comm.
Qed.

Lemma hashimoto_comm_witness :
  hashimoto [x01; x02] [xff; x0f] = hashimoto [xff; x0f] [x01; x02].
Proof. apply (hashimoto_comm [x01; x02] [xff; x0f]). reflexivity. Defined.

(** X3. [hashimoto] reads only the first [len(h)] bytes of the nonce digest:
    bytes appended to a nonce digest that is long enough change nothing. *)
Theorem hashimoto_ignores_tail (h n t : list byte) :
  (length h <= length n)%nat ->
  hashimoto h (n ++ t) = hashimoto h n
  /\ hashimoto h (take (length h) n) = hashimoto h n.
Proof.
  intros Hlen. split.
  - rewrite !hashimoto_zip_with by (rewrite ?length_app; lia). f_equal.
    revert n Hlen. induction h as [|a h IH]; intros [|b n] Hlen; cbn in *; try done; try lia.
    f_equal. apply IH. lia.
  - rewrite !hashimoto_zip_with by (rewrite ?length_take; lia). f_equal.
    revert n Hlen. induction h as [|a h IH]; intros [|b n] Hlen; cbn in *; try done; try lia.
    f_equal. apply IH. lia.
Qed.

Lemma hashimoto_ignores_tail_witness :
  hashimoto [x01; x02] ([xff; x0f] ++ [x33]) = hashimoto [x01; x02] [xff; x0f]
  /\ hashimoto [x01; x02] (take (length [x01; x02]) [xff; x0f])
     = hashimoto [x01; x02] [xff; x0f].
Proof. apply (hashimoto_ignores_tail [x01; x02] [xff; x0f] [x33]). simpl. lia. Defined.

(** X4. An all-zero nonce digest gives the header digest back, and a header
    digest used as its own nonce digest gives all zero bytes; on the empty
    header digest the result is empty whatever the nonce digest. *)
Theorem hashimoto_zero_and_self (h : list byte) :
  hashimoto h (replicate (length h) x00) = Return h
  /\ hashimoto h h = Return (replicate (length h) x00)
  /\ forall n, hashimoto [] n = Return [].
Proof.
  split_and!.
  - rewrite hashimoto_zip_with by (rewrite length_replicate; lia). f_equal.
    induction h as [|a h IH]; cbn; [done|]. by rewrite byte_xor_x00, IH.
  - rewrite hashimoto_zip_with by lia. f_equal.
    induction h as [|a h IH]; cbn; [done|]. by rewrite byte_xor_diag, IH.
  - done.
Qed.

(** ** seedHash and the hasher *)

Section SeedFurther.
Context {K : Keccak}.
Hypothesis keccak_squeeze_length : Keccak_lawful K.

Lemma hasher_call_any_state (rh : sha3_state) (dest data : list byte) :
  (32 <= length dest)%nat ->
  hasher_call rh dest data
  = Return ({| absorbed := data; squeezed := 32 |},
            keccak256_digest data ++ drop 32 dest).
Proof.
  intros Hlen. unfold hasher_call, sha3_Reset, sha3_Write, sha3_Read.
  cbn [squeezed absorbed mbind outcome_bind app].
  rewrite decide_True by (unfold sha3_Size; lia).
  rewrite length_take_le by (unfold sha3_Size; lia).
  reflexivity.
Qed.

(** X5. The hasher can be used again and again: whatever the sponge was
    used for before, a call on a destination of at least 32 bytes puts the
    Keccak-256 digest of [data] into the first 32 bytes of the destination
    and leaves the rest of the destination, and its length, as they were. *)
Theorem hasher_reusable (rh rh' : sha3_state) (dest data : list byte) :
  (32 <= length dest)%nat ->
  exists st out,
    hasher_call rh dest data = Return (st, out)
    /\ hasher_call rh' dest data = Return (st, out)
    /\ take 32 out = keccak256_digest data
    /\ drop 32 out = drop 32 dest
    /\ length out = length dest.
Proof.
  intros Hlen. eexists _, _.
  split; [by apply hasher_call_any_state|].
  split; [by apply hasher_call_any_state|].
  pose proof (keccak_squeeze_length data sha3_Size) as Hd.
  fold (keccak256_digest data) in Hd. unfold sha3_Size in Hd.
  split_and!.
  - rewrite take_app_length'; done.
  - rewrite drop_app_length'; done.
  - rewrite length_app, length_drop, Hd. lia.
Qed.

(** X6. [seedHash] of a [uint64] block number always returns, and what it
    returns is 32 bytes long. *)
Theorem seedHash_length (b : Z) :
  uint64_range b -> exists seed, seedHash b = Return seed /\ length seed = 32%nat.
Proof.
  intros Hb. rewrite seedHash_iter by done. eexists. split; [reflexivity|].
  generalize (Z.to_nat (b / epochLength)). intros k.
  destruct k as [|k]; [apply length_make_bytes|].
  cbn [Nat.iter]. apply (keccak_squeeze_length _ sha3_Size).
Qed.

(** X7. The seed of the next epoch is the Keccak-256 digest of the seed of
    this epoch: adding [epochLength] to the block number hashes the seed
    once more. *)
Theorem seedHash_next_epoch (b : Z) :
  uint64_range b -> uint64_range (b + epochLength) ->
  exists seed,
    seedHash b = Return seed
    /\ seedHash (b + epochLength) = Return (keccak256_digest seed).
Proof.
  intros Hb Hb'. rewrite !seedHash_iter by done.
  eexists. split; [reflexivity|]. f_equal.
  replace (Z.to_nat ((b + epochLength) / epochLength))
    with (S (Z.to_nat (b / epochLength))); [reflexivity|].
  unfold uint64_range, epochLength in *.
  replace (b + 30000) with (b + 1 * 30000) by lia.
  rewrite Z.div_add by lia.
  rewrite Z2Nat.inj_add; [lia| |lia]. apply Z.div_pos; lia.
Qed.

End SeedFurther.

Lemma hasher_reusable_witness :
  exists st out,
    hasher_call (K := echo_Keccak) NewLegacyKeccak256 (make_bytes 40) [x07] = Return (st, out)
    /\ hasher_call (K := echo_Keccak) {| absorbed := [x09]; squeezed := 5 |}
         (make_bytes 40) [x07] = Return (st, out)
    /\ take 32 out = keccak256_digest (K := echo_Keccak) [x07]
    /\ drop 32 out = drop 32 (make_bytes 40)
    /\ length out = length (make_bytes 40).
Proof.
  apply (hasher_reusable (K := echo_Keccak) echo_squeeze_length
           NewLegacyKeccak256 {| absorbed := [x09]; squeezed := 5 |} (make_bytes 40) [x07]).
  simpl. lia.
Defined.

Lemma seedHash_length_witness :
  exists seed, seedHash (K := echo_Keccak) 65000 = Return seed /\ length seed = 32%nat.
Proof.
  apply (seedHash_length (K := echo_Keccak) echo_squeeze_length 65000).
  unfold uint64_range. lia.
Defined.

Lemma seedHash_next_epoch_witness :
  exists seed,
    seedHash (K := echo_Keccak) 35000 = Return seed
    /\ seedHash (K := echo_Keccak) (35000 + epochLength)
       = Return (keccak256_digest (K := echo_Keccak) seed).
Proof.
  apply (seedHash_next_epoch (K := echo_Keccak) echo_squeeze_length 35000);
    unfold uint64_range, epochLength; lia.
Defined.

(** ** prepare *)

Lemma uint32_of_byte_range (b : byte) : 0 <= uint32_of_byte b < 256.
Proof. unfold uint32_of_byte. pose proof (Byte.to_N_bounded b). lia. Qed.

Lemma Z_land_shiftl_0 (a b k : Z) :
  0 <= k -> 0 <= a < 2 ^ k -> Z.land a (Z.shiftl b k) = 0.
Proof.
  intros Hk Ha. apply Z.bits_inj'. intros n Hn.
  rewrite Z.land_spec, Z.bits_0.
  destruct (Z.ltb_spec n k) as [Hlt|Hge].
  - rewrite Z.shiftl_spec_low by lia. apply andb_false_r.
  - destruct (Z.eq_dec a 0) as [->|Hnz]; [by rewrite Z.bits_0|].
    rewrite (Z.bits_above_log2 a n); [done|lia|].
    apply Z.lt_le_trans with k; [|lia].
    apply Z.log2_lt_pow2; lia.
Qed.

Lemma Z_lor_shiftl (a b k : Z) :
  0 <= k -> 0 <= a < 2 ^ k -> Z.lor a (Z.shiftl b k) = a + b * 2 ^ k.
Proof.
  intros Hk Ha.
  rewrite <- Z.lxor_lor by by apply Z_land_shiftl_0.
  rewrite <- Z.add_nocarry_lxor by by apply Z_land_shiftl_0.
  by rewrite Z.shiftl_mul_pow2.
Qed.

Lemma uint32_shl_byte (x k : Z) :
  0 <= x < 256 -> 0 <= k <= 24 -> uint32_shl x k = x * 2 ^ k.
Proof.
  intros Hx Hk. unfold uint32_shl. rewrite Z.shiftl_mul_pow2 by lia.
  apply Z.mod_small. split; [apply Z.mul_nonneg_nonneg; lia|].
  apply Z.lt_le_trans with (256 * 2 ^ k).
  - apply Z.mul_lt_mono_pos_r; lia.
  - change 256 with (2 ^ 8). rewrite <- Z.pow_add_r by lia.
    apply Z.pow_le_mono_r; lia.
Qed.

Lemma LittleEndian_Uint32_word (b0 b1 b2 b3 : byte) (rest : list byte) :
  LittleEndian_Uint32 (b0 :: b1 :: b2 :: b3 :: rest)
  = Return (uint32_of_byte b0 + 2 ^ 8 * uint32_of_byte b1
            + 2 ^ 16 * uint32_of_byte b2 + 2 ^ 24 * uint32_of_byte b3).
Proof.
  pose proof (uint32_of_byte_range b0). pose proof (uint32_of_byte_range b1).
  pose proof (uint32_of_byte_range b2). pose proof (uint32_of_byte_range b3).
  cbn [LittleEndian_Uint32]. f_equal.
  rewrite !uint32_shl_byte by lia.
  rewrite <- !Z.shiftl_mul_pow2 by lia.
  rewrite (Z_lor_shiftl _ _ 8) by lia.
  rewrite (Z_lor_shiftl _ _ 16) by lia.
  rewrite (Z_lor_shiftl _ _ 24) by lia.
  lia.
Qed.

Lemma LittleEndian_Uint32_short (b : list byte) :
  (length b < 4)%nat -> LittleEndian_Uint32 b = Panics IndexOutOfRange.
Proof.
  intros Hb. destruct b as [|? [|? [|? [|? ?]]]]; cbn in *; try done. lia.
Qed.

Lemma word_at_range (src : list byte) (i : nat) (w : Z) :
  word_at src i = Some w -> uint32_range w.
Proof.
  unfold word_at. intros Hw.
  destruct (src !! (4 * i)%nat) as [b0|]; [|done].
  destruct (src !! (4 * i + 1)%nat) as [b1|]; [|done].
  destruct (src !! (4 * i + 2)%nat) as [b2|]; [|done].
  destruct (src !! (4 * i + 3)%nat) as [b3|]; [|done].
  cbn in Hw. injection Hw as <-.
  pose proof (uint32_of_byte_range b0). pose proof (uint32_of_byte_range b1).
  pose proof (uint32_of_byte_range b2). pose proof (uint32_of_byte_range b3).
  unfold uint32_range. lia.
Qed.

(** One step of the loop: the word read at index [i]. *)
Lemma prepare_read (src : list byte) (i : nat) :
  (4 * i + 4 <= length src)%nat ->
  exists w,
    word_at src i = Some w
    /\ (b ← slice_from src (i * 4); LittleEndian_Uint32 b) = Return w.
Proof.
  intros Hlen. unfold slice_from. rewrite decide_True by lia.
  cbn [mbind outcome_bind].
  destruct (drop (i * 4) src) as [|b0 [|b1 [|b2 [|b3 rest]]]] eqn:Hd;
    try (apply (f_equal length) in Hd; rewrite length_drop in Hd; cbn in Hd; lia).
  assert (Hk : forall k x, (drop (i * 4) src) !! k = Some x -> src !! (4 * i + k)%nat = Some x).
  { intros k x Hx. rewrite lookup_drop in Hx. by replace (4 * i + k)%nat with (i * 4 + k)%nat by lia. }
  rewrite Hd in Hk.
  pose proof (Hk 0%nat b0 eq_refl) as H0. rewrite Nat.add_0_r in H0.
  unfold word_at.
  rewrite H0, (Hk 1%nat b1 eq_refl), (Hk 2%nat b2 eq_refl), (Hk 3%nat b3 eq_refl).
  eexists. split; [reflexivity|]. apply LittleEndian_Uint32_word.
Qed.

Lemma store_uint32_lt (s : list Z) (i : nat) (w : Z) :
  (i < length s)%nat -> store_uint32 s i w = Return (<[i:=w]> s).
Proof. intros H. unfold store_uint32. by rewrite decide_True. Qed.

Lemma prepare_loop_returns (k : nat) :
  forall (i : nat) (dest : list Z) (src : list byte),
    (i + k <= length dest)%nat ->
    (4 * (i + k) <= length src)%nat ->
    exists d,
      prepare_loop k i dest src = Return d
      /\ length d = length dest
      /\ (forall j, (j < i \/ i + k <= j)%nat -> d !! j = dest !! j)
      /\ (forall j, (i <= j < i + k)%nat -> d !! j = word_at src j).
Proof.
  induction k as [|k IH]; intros i dest src Hd Hs.
  - exists dest. cbn. split_and!; auto. intros; lia.
  - destruct (prepare_read src i) as (w & Hw & Hread); [lia|].
    cbn [prepare_loop].
    destruct (slice_from src (i * 4)) as [b| |] eqn:Hsl; cbn [mbind outcome_bind] in *;
      try discriminate.
    rewrite Hread. cbn [mbind outcome_bind].
    rewrite store_uint32_lt by lia. cbn [mbind outcome_bind].
    destruct (IH (S i) (<[i:=w]> dest) src) as (d & Hrun & Hlen & Hout & Hin);
      rewrite ?length_insert; try lia.
    exists d. rewrite Hrun. rewrite length_insert in Hlen.
    split_and!; auto.
    + intros j Hj. rewrite Hout by lia. apply list_lookup_insert_ne. lia.
    + intros j Hj. destruct (decide (j = i)) as [->|Hne].
      * rewrite Hout by lia. rewrite Hw. apply list_lookup_insert_eq. lia.
      * apply Hin. lia.
Qed.

Lemma prepare_loop_panics (k : nat) :
  forall (i : nat) (dest : list Z) (src : list byte),
    (i + k <= length dest)%nat ->
    (4 * i <= length src < 4 * (i + k))%nat ->
    prepare_loop k i dest src = Panics IndexOutOfRange.
Proof.
  induction k as [|k IH]; intros i dest src Hd Hs; [lia|].
  cbn [prepare_loop].
  destruct (decide (4 * i + 4 <= length src)%nat) as [Hok|Hshort].
  - destruct (prepare_read src i) as (w & Hw & Hread); [lia|].
    destruct (slice_from src (i * 4)) as [b| |] eqn:Hsl; cbn [mbind outcome_bind] in *;
      try discriminate.
    rewrite Hread. cbn [mbind outcome_bind].
    rewrite store_uint32_lt by lia. cbn [mbind outcome_bind].
    apply IH; rewrite ?length_insert; lia.
  - unfold slice_from. rewrite decide_True by lia. cbn [mbind outcome_bind].
    rewrite LittleEndian_Uint32_short; [done|]. rewrite length_drop. lia.
Qed.

(** X8. When [src] holds at least four bytes for every element of [dest],
    [prepare] returns, [dest] keeps its length, and element [i] becomes the
    word with bytes [src[4i]], [src[4i+1]], [src[4i+2]], [src[4i+3]], least
    significant first, a value below [2^32]; the old contents of [dest]
    play no part. *)
Theorem prepare_decodes (dest : list Z) (src : list byte) :
  (4 * length dest <= length src)%nat ->
  exists d,
    prepare dest src = Return d
    /\ length d = length dest
    /\ forall i, (i < length dest)%nat ->
         exists w, d !! i = Some w /\ word_at src i = Some w /\ uint32_range w.
Proof.
  intros Hlen.
  destruct (prepare_loop_returns (length dest) 0 dest src) as (d & Hrun & Hd & _ & Hin);
    try lia.
  exists d. split_and!; [exact Hrun|exact Hd|].
  intros i Hi. destruct (lookup_lt_is_Some_2 d i) as [w Hw]; [lia|].
  exists w. split; [done|]. rewrite <- Hin by lia.
  split; [done|]. apply (word_at_range src i). by rewrite <- Hin by lia.
Qed.

Lemma prepare_decodes_witness :
  exists d,
    prepare [7; 7] [x01; x02; x03; x04; xff; xff; xff; xff; x09] = Return d
    /\ length d = length [7; 7]
    /\ forall i, (i < length [7; 7])%nat ->
         exists w, d !! i = Some w
                   /\ word_at [x01; x02; x03; x04; xff; xff; xff; xff; x09] i = Some w
                   /\ uint32_range w.
Proof.
  apply (prepare_decodes [7; 7] [x01; x02; x03; x04; xff; xff; xff; xff; x09]).
  simpl. lia.
Defined.

Example prepare_two_words :
  prepare [7; 7] [x01; x02; x03; x04; xff; xff; xff; xff; x09]
  = Return [67305985; 4294967295].
Proof. reflexivity. Qed.

(** X9. When [src] is shorter than four bytes for every element of [dest],
    [prepare] panics with an index out of range, in the read of the first
    word that is not there in full. *)
Theorem prepare_short_panics (dest : list Z) (src : list byte) :
  (length src < 4 * length dest)%nat ->
  prepare dest src = Panics IndexOutOfRange.
Proof.
  intros Hlen. unfold prepare. apply prepare_loop_panics; lia.
Qed.

Lemma prepare_short_panics_witness :
  prepare [0; 0] [x01; x02; x03; x04; xff; xff; xff] = Panics IndexOutOfRange.
Proof. apply (prepare_short_panics [0; 0] [x01; x02; x03; x04; xff; xff; xff]). simpl. lia. Defined.

Lemma uint32_of_byte_of_Z (z : Z) : uint32_of_byte (byte_of_Z z) = z mod 256.
Proof.
  unfold uint32_of_byte, byte_of_Z.
  pose proof (Z.mod_pos_bound z 256 ltac:(lia)) as Hz.
  destruct (Byte.of_N _) as [b|] eqn:E.
  - apply Byte.to_of_N in E. rewrite E. lia.
  - apply Byte.of_N_None_iff in E. lia.
Qed.

Lemma uint32_bytes_sum (w : Z) :
  uint32_range w ->
  w mod 256 + 2 ^ 8 * ((w / 2 ^ 8) mod 256)
  + 2 ^ 16 * ((w / 2 ^ 16) mod 256) + 2 ^ 24 * ((w / 2 ^ 24) mod 256) = w.
Proof.
  unfold uint32_range. intros Hw.
  change (2 ^ 8) with 256. change (2 ^ 16) with 65536.
  change (2 ^ 24) with 16777216. change (2 ^ 32) with 4294967296 in Hw.
  Z.div_mod_to_equations. lia.
Qed.

Lemma words_bytes_lookup (ws : list Z) :
  forall (i k : nat) (w : Z),
    ws !! i = Some w -> (k < 4)%nat ->
    words_bytes ws !! (4 * i + k)%nat = uint32_bytes w !! k.
Proof.
  induction ws as [|v ws IH]; intros i k w Hw Hk; [done|].
  change (words_bytes (v :: ws)) with (uint32_bytes v ++ words_bytes ws).
  destruct i as [|i].
  - cbn in Hw. injection Hw as ->. rewrite Nat.mul_0_r, Nat.add_0_l.
    by rewrite lookup_app_l by (cbn; lia).
  - cbn in Hw. rewrite lookup_app_r by (cbn; lia).
    replace (4 * S i + k - length (uint32_bytes v))%nat with (4 * i + k)%nat by (cbn; lia).
    by apply IH.
Qed.

Lemma length_words_bytes (ws : list Z) : length (words_bytes ws) = (4 * length ws)%nat.
Proof.
  induction ws as [|v ws IH]; [done|].
  change (words_bytes (v :: ws)) with (uint32_bytes v ++ words_bytes ws).
  rewrite length_app, IH. cbn. lia.
Qed.

Lemma word_at_words_bytes (ws : list Z) (tail : list byte) (i : nat) (w : Z) :
  ws !! i = Some w -> uint32_range w ->
  word_at (words_bytes ws ++ tail) i = Some w.
Proof.
  intros Hw Hr. pose proof (lookup_lt_Some _ _ _ Hw) as Hi.
  assert (Hk : forall k, (k < 4)%nat ->
            (words_bytes ws ++ tail) !! (4 * i + k)%nat = uint32_bytes w !! k).
  { intros k Hk. rewrite lookup_app_l by (rewrite length_words_bytes; lia).
    by apply words_bytes_lookup. }
  pose proof (Hk 0%nat ltac:(lia)) as H0. rewrite Nat.add_0_r in H0.
  unfold word_at.
  rewrite H0, (Hk 1%nat), (Hk 2%nat), (Hk 3%nat) by lia.
  cbn. rewrite !uint32_of_byte_of_Z. f_equal. by apply uint32_bytes_sum.
Qed.

(** X10. [prepare] reads back what the little-endian byte stream of a list
    of words holds: on the four-byte encodings of the [uint32] words [ws],
    followed by any further bytes, it fills a [dest] of the same length with
    exactly [ws]. *)
Theorem prepare_words_bytes (dest ws : list Z) (tail : list byte) :
  length dest = length ws -> Forall uint32_range ws ->
  prepare dest (words_bytes ws ++ tail) = Return ws.
Proof.
  intros Hlen Hws.
  destruct (prepare_loop_returns (length dest) 0 dest (words_bytes ws ++ tail))
    as (d & Hrun & Hd & _ & Hin);
    [lia|rewrite length_app, length_words_bytes; lia|].
  unfold prepare. rewrite Hrun. f_equal.
  apply list_eq. intros i.
  destruct (decide (i < length ws)%nat) as [Hi|Hi].
  - destruct (lookup_lt_is_Some_2 ws i) as [w Hw]; [lia|].
    rewrite Hin by lia. rewrite Hw.
    apply word_at_words_bytes; [done|].
    rewrite Forall_lookup in Hws. by eapply Hws.
  - rewrite (lookup_ge_None_2 d) by lia. by rewrite (lookup_ge_None_2 ws) by lia.
Qed.

Lemma prepare_words_bytes_witness :
  prepare [0; 0; 0] (words_bytes [1; 4294967295; 305419896] ++ [xaa])
  = Return [1; 4294967295; 305419896].
Proof.
  apply (prepare_words_bytes [0; 0; 0] [1; 4294967295; 305419896] [xaa]).
  - reflexivity.
  - repeat constructor; unfold uint32_range; lia.
Defined.

(** ** The engine, operation by operation *)

Section EngineFurther.
Context {P : Packages}.

Lemma same_setup_refl (e : Hmhash) : same_setup e e.
Proof. by repeat split. Qed.

Lemma remoteSealer_loop_started (r : remoteSealer) :
  notifyURLs (remoteSealer_loop r) = notifyURLs r
  /\ noverify (remoteSealer_loop r) = noverify r.
Proof. unfold remoteSealer_loop. by destruct (requestExit r). Qed.

(** Whatever the state, a [SetThreads] that returns has set the count of
    one engine that does not delegate, and nothing else. *)
Lemma SetThreads_fuel_inv (fuel : nat) :
  forall (l : loc) (n : Z) (σ σ' : Process),
    SetThreads_fuel fuel l n σ = Return σ' ->
    exists l0 e0,
      heap σ !! l0 = Some e0 /\ shared e0 = None /\ σ' = threads_set l0 e0 n σ.
Proof.
  induction fuel as [|fuel IH]; intros l n σ σ' Hrun; [discriminate|].
  cbn [SetThreads_fuel] in Hrun. unfold deref in Hrun.
  destruct (heap σ !! l) as [e|] eqn:Hl; [|discriminate].
  cbn [mbind outcome_bind] in Hrun.
  destruct (shared e) as [s|] eqn:Hs.
  - by eapply IH.
  - exists l, e. split_and!; [done|done|].
    unfold threads_set. destruct (ping_update l (update e)).
    by injection Hrun as <-.
Qed.

(** Whatever the state, a [Close] that returns has returned nil and has
    changed, if anything, the once-flag and the channels of its own
    engine. *)
Lemma Close_inv (l : loc) (σ σ' : Process) (err : error) :
  Close l σ = Return (err, σ') ->
  err = None
  /\ exists e e' evs,
       heap σ !! l = Some e
       /\ σ' = {| heap := <[l := e']> (heap σ); sharedHmhash := sharedHmhash σ;
                  trace := trace σ ++ evs |}
       /\ same_setup e e'
       /\ threads e' = threads e
       /\ closeOnce e' = true.
Proof.
  unfold Close, StopRemoteSealer, deref. intros Hrun.
  destruct (heap σ !! l) as [e|] eqn:Hl; [|discriminate].
  cbn [mbind outcome_bind] in Hrun. unfold Once_Do in Hrun.
  destruct (closeOnce e) eqn:Hd.
  - cbn [mbind outcome_bind fst snd] in Hrun. injection Hrun as <- <-.
    split; [done|]. exists e, e, []. split_and!; auto using same_setup_refl.
  - unfold stop_func in Hrun.
    destruct (remote e) as [r|] eqn:Hr.
    + destruct (requestExit r) eqn:Hreq; cbn in Hrun; [|discriminate].
      injection Hrun as <- <-. split; [done|].
      eexists e, _, _. split_and!; [done|reflexivity| |done|done].
      unfold same_setup. cbn. rewrite Hr, Hd. by split_and!.
    + cbn in Hrun. injection Hrun as <- <-. split; [done|].
      eexists e, _, _. split_and!; [done|reflexivity| |done|done].
      unfold same_setup. cbn. rewrite Hr, Hd. by split_and!.
Qed.

(** What one step does to the heap: nothing, or one engine is allocated, or
    one engine is replaced by one with the same setup. *)
Lemma step_effect (σ σ' : Process) :
  step σ σ' ->
  sharedHmhash σ' = sharedHmhash σ
  /\ (heap σ' = heap σ
      \/ exists l e',
           heap σ' = <[l := e']> (heap σ)
           /\ match heap σ !! l with
              | Some e => same_setup e e'
              | None => shared e' = None \/ shared e' = sharedHmhash σ
              end).
Proof.
  destruct 1 as [config notify nv σ|notify nv σ|σ|fail σ|delay σ|σ|σ
                |l n σ σ' Hrun|l err σ σ' Hrun|l rate σ].
  - rewrite New_unfold. cbn [snd heap sharedHmhash]. split; [done|]. right.
    eexists _, _. split; [reflexivity|]. rewrite alloc_fresh.
    cbn [shared New_engine]. case_decide; auto.
  - unfold NewTester. rewrite New_unfold. cbn [snd heap sharedHmhash].
    split; [done|]. right.
    eexists _, _. split; [reflexivity|]. rewrite alloc_fresh.
    cbn [shared New_engine]. case_decide; auto.
  - split; [done|]. right. eexists _, _. split; [reflexivity|].
    rewrite alloc_fresh. by left.
  - split; [done|]. right. eexists _, _. split; [reflexivity|].
    rewrite alloc_fresh. by left.
  - split; [done|]. right. eexists _, _. split; [reflexivity|].
    rewrite alloc_fresh. by left.
  - split; [done|]. right. eexists _, _. split; [reflexivity|].
    rewrite alloc_fresh. by left.
  - split; [done|]. right. eexists _, _. split; [reflexivity|].
    rewrite alloc_fresh. by right.
  - destruct (SetThreads_fuel_inv _ _ _ _ _ Hrun) as (l0 & e0 & Hl0 & Hs0 & ->).
    split; [done|]. right. eexists _, _. split; [reflexivity|].
    rewrite Hl0. by repeat split.
  - destruct (Close_inv _ _ _ _ Hrun) as (_ & e & e' & evs & Hl & -> & Hsame & _).
    split; [done|]. right. eexists _, _. split; [reflexivity|]. by rewrite Hl.
  - unfold report_rate.
    destruct (heap σ !! l) as [e|] eqn:Hl; [|by split; [|left]].
    destruct (remote e) as [r|] eqn:Hr; [|by split; [|left]].
    destruct (exitCh r) eqn:Hex; [|by split; [|left]].
    split; [done|]. right. eexists _, _. split; [reflexivity|].
    rewrite Hl. unfold same_setup. cbn. rewrite Hr. by split_and!.
Qed.

(** X11. No operation frees an engine or changes its setup: after any step,
    an engine that was there is still there with the same configuration
    (mode included), delegate, random source, meter and test hooks, its
    remote handle is nil if and only if it was, with the notify list and
    flag it was started with, and a once-flag that was set is still set;
    and the package variable [sharedHmhash] is what it was. *)
Theorem step_keeps_setup (σ σ' : Process) (l : loc) (e : Hmhash) :
  step σ σ' -> heap σ !! l = Some e ->
  sharedHmhash σ' = sharedHmhash σ
  /\ exists e', heap σ' !! l = Some e' /\ same_setup e e'.
Proof.
  intros Hstep Hl. destruct (step_effect σ σ' Hstep) as [Hsh [Heq|(l0 & e' & Heq & Hcase)]].
  - split; [done|]. exists e. rewrite Heq. auto using same_setup_refl.
  - split; [done|]. rewrite Heq. destruct (decide (l0 = l)) as [->|Hne].
    + rewrite Hl in Hcase. exists e'. by rewrite lookup_insert_eq.
    + exists e. rewrite lookup_insert_ne by done. auto using same_setup_refl.
Qed.

Lemma same_setup_trans (e1 e2 e3 : Hmhash) :
  same_setup e1 e2 -> same_setup e2 e3 -> same_setup e1 e3.
Proof.
  unfold same_setup.
  intros (?&?&?&?&?&?&?&?&?) (?&?&?&?&?&?&?&?&?).
  split_and!; try congruence. auto.
Qed.

(** A property that holds after [init] and is kept by every step holds in
    every reachable state. *)
Lemma reachable_step_ind (Q : Process -> Prop) :
  Q (init Process_start) ->
  (forall σ σ', reachable σ -> Q σ -> step σ σ' -> Q σ') ->
  forall σ, reachable σ -> Q σ.
Proof.
  intros Hinit Hstep σ Hr.
  induction Hr as [ | config notify nv σ Hr IH | notify nv σ Hr IH | σ Hr IH
                  | fail σ Hr IH | delay σ Hr IH | σ Hr IH | σ Hr IH
                  | l n σ σ' Hr IH Hrun | l err σ σ' Hr IH Hrun | l rate σ Hr IH ].
  - exact Hinit.
  - exact (Hstep _ _ Hr IH (step_New config notify nv σ)).
  - exact (Hstep _ _ Hr IH (step_NewTester notify nv σ)).
  - exact (Hstep _ _ Hr IH (step_NewFaker σ)).
  - exact (Hstep _ _ Hr IH (step_NewFakeFailer fail σ)).
  - exact (Hstep _ _ Hr IH (step_NewFakeDelayer delay σ)).
  - exact (Hstep _ _ Hr IH (step_NewFullFaker σ)).
  - exact (Hstep _ _ Hr IH (step_NewShared σ)).
  - exact (Hstep _ _ Hr IH (step_SetThreads l n σ σ' Hrun)).
  - exact (Hstep _ _ Hr IH (step_Close l err σ σ' Hrun)).
  - exact (Hstep _ _ Hr IH (step_report l rate σ)).
Qed.

(** The singleton of a reachable process. *)
Lemma reachable_singleton (σ : Process) :
  reachable σ ->
  sharedHmhash σ = Some singleton
  /\ (exists e,
        heap σ !! singleton = Some e
        /\ config e = {| PowMode := ModeNormal; NotifyFull := false;
                         Log := Some log_Root |}
        /\ shared e = None
        /\ hashrate e = metrics_NewMeterForced
        /\ notifyURLs <$> remote e = Some []
        /\ noverify <$> remote e = Some false)
  /\ (forall l e s, heap σ !! l = Some e -> shared e = Some s -> s = singleton).
Proof.
  revert σ. apply reachable_step_ind.
  - unfold init. rewrite New_unfold. cbn [heap sharedHmhash]. fold singleton.
    split; [done|]. split.
    + eexists. split; [apply lookup_insert_eq|]. cbn.
      by rewrite decide_False.
    + intros l e s Hl Hs.
      apply lookup_insert_Some in Hl as [[_ <-]|[_ Hl]].
      * cbn in Hs. by rewrite decide_False in Hs.
      * unfold Process_start in Hl. cbn [heap] in Hl.
        by rewrite lookup_empty in Hl.
  - intros σ σ' _ (Hsh & (e & He & Hcfg & Hnone & Hm & Hurls & Hnv) & Hall) Hstep.
    destruct (step_effect σ σ' Hstep) as [Hsh' [Heq|(l0 & e' & Heq & Hcase)]].
    + rewrite Hsh', Heq. split; [done|]. split; [by exists e|done].
    + rewrite Hsh', Heq. split; [done|]. split.
      * destruct (decide (l0 = singleton)) as [->|Hne].
        -- rewrite He in Hcase.
           destruct Hcase as (Hc & Hs & _ & Hh & _ & _ & Hu & Hn & _).
           exists e'. rewrite lookup_insert_eq.
           split_and!; [done|congruence..].
        -- exists e. by rewrite lookup_insert_ne.
      * intros l e1 s Hl Hs.
        apply lookup_insert_Some in Hl as [[<- <-]|[Hne Hl]]; [|by eapply Hall].
        destruct (heap σ !! l0) as [e0|] eqn:Hl0.
        -- destruct Hcase as (_ & Hs' & _). rewrite Hs' in Hs. by eapply Hall.
        -- destruct Hcase as [Hc|Hc]; congruence.
Qed.

(** X12. In every reachable process the package variable [sharedHmhash]
    points to the engine [init] made, which is still allocated, is in
    Normal mode with the root logger, holds the meter [New] gave it, has a
    remote handle started with no notify list and [noverify] false, and has
    no delegate itself; and every engine that has a delegate has this
    engine as its delegate. *)
Theorem singleton_invariant (σ : Process) :
  reachable σ ->
  sharedHmhash σ = Some singleton
  /\ (exists e,
        heap σ !! singleton = Some e
        /\ config e = {| PowMode := ModeNormal; NotifyFull := false;
                         Log := Some log_Root |}
        /\ shared e = None
        /\ hashrate e = metrics_NewMeterForced
        /\ notifyURLs <$> remote e = Some []
        /\ noverify <$> remote e = Some false)
  /\ (forall l e s, heap σ !! l = Some e -> shared e = Some s -> s = singleton)
  /\ shared <$> heap (NewShared σ).2 !! (NewShared σ).1 = Some (Some singleton).
Proof.
  intros Hr. destruct (reachable_singleton σ Hr) as (Hsh & He & Hall).
  split_and!; [done|done|done|].
  unfold NewShared. rewrite new_Hmhash_lookup. cbn. by rewrite Hsh.
Qed.

(** [Hashrate] reads the configuration, the meter and the remote handle of
    its engine, and nothing else. *)
Lemma Hashrate_insert (σ σ' : Process) (l0 : loc) (e0 e0' : Hmhash) :
  heap σ !! l0 = Some e0 -> heap σ' = <[l0 := e0']> (heap σ) ->
  config e0' = config e0 -> hashrate e0' = hashrate e0 -> remote e0' = remote e0 ->
  forall l, Hashrate l σ' = Hashrate l σ.
Proof.
  intros Hl0 Heq Hc Hh Hr l. unfold Hashrate, deref. rewrite Heq.
  destruct (decide (l = l0)) as [->|Hne].
  - rewrite lookup_insert_eq, Hl0. cbn [mbind outcome_bind].
    by rewrite Hc, Hh, Hr.
  - by rewrite lookup_insert_ne.
Qed.

(** A [SetThreads] that returns has followed the delegates from its
    receiver to an engine without one and has set that engine's count. *)
Lemma SetThreads_fuel_ends (fuel : nat) :
  forall (l : loc) (n : Z) (σ σ' : Process),
    SetThreads_fuel fuel l n σ = Return σ' ->
    exists l0 e0,
      ends_at σ l l0
      /\ heap σ !! l0 = Some e0 /\ shared e0 = None /\ σ' = threads_set l0 e0 n σ.
Proof.
  induction fuel as [|fuel IH]; intros l n σ σ' Hrun; [discriminate|].
  cbn [SetThreads_fuel] in Hrun. unfold deref in Hrun.
  destruct (heap σ !! l) as [e|] eqn:Hl; [|discriminate].
  cbn [mbind outcome_bind] in Hrun.
  destruct (shared e) as [s|] eqn:Hs.
  - destruct (IH _ _ _ _ Hrun) as (l0 & e0 & Hends & Hrest).
    exists l0, e0. split; [by eapply ends_further|done].
  - exists l, e. split_and!; [by eapply ends_here|done|done|].
    unfold threads_set. destruct (ping_update l (update e)).
    by injection Hrun as <-.
Qed.

Lemma ends_at_local (σ : Process) (l l0 : loc) (e : Hmhash) :
  heap σ !! l = Some e -> shared e = None -> ends_at σ l l0 -> l0 = l.
Proof. intros Hl Hs Hends. inversion Hends; [done|congruence]. Qed.

Lemma ends_at_delegate (σ : Process) (l s l0 : loc) (e es : Hmhash) :
  heap σ !! l = Some e -> shared e = Some s ->
  heap σ !! s = Some es -> shared es = None ->
  ends_at σ l l0 -> l0 = s.
Proof.
  intros Hl Hs Hls Hss Hends.
  inversion Hends as [l' e' Hl' Hs' | l' e' s' l0' Hl' Hs' Hends']; subst.
  - congruence.
  - assert (s' = s) as -> by congruence.
    exact (ends_at_local σ s l0 es Hls Hss Hends').
Qed.

(** X13. A [SetThreads] that returns has written the count of exactly one
    engine, the one the delegation from its receiver ends at: the receiver
    itself when it has no delegate, its delegate when it has one and that
    one has none, and in general the end of the chain of delegates. That
    engine's [Threads] is the new count, every other engine (the receiver
    too, when it delegates) is what it was, [sharedHmhash] is what it was,
    [Hashrate] of every engine is what it was, and at most one update ping
    was sent, on that engine's channel. *)
Theorem SetThreads_frame (l : loc) (n : Z) (σ σ' : Process) :
  SetThreads l n σ = Return σ' ->
  sharedHmhash σ' = sharedHmhash σ
  /\ (forall l', Hashrate l' σ' = Hashrate l' σ)
  /\ exists l0,
       ends_at σ l l0
       /\ (forall e, heap σ !! l = Some e -> shared e = None -> l0 = l)
       /\ (forall e s es,
             heap σ !! l = Some e -> shared e = Some s ->
             heap σ !! s = Some es -> shared es = None -> l0 = s)
       /\ Threads l0 σ' = Return n
       /\ (forall l', l' <> l0 -> heap σ' !! l' = heap σ !! l')
       /\ (trace σ' = trace σ \/ trace σ' = trace σ ++ [EvUpdate l0]).
Proof.
  intros Hrun.
  destruct (SetThreads_fuel_ends _ _ _ _ _ Hrun)
    as (l0 & e0 & Hends & Hl0 & Hs0 & ->).
  split; [done|]. split.
  - by eapply Hashrate_insert.
  - exists l0. split_and!.
    + exact Hends.
    + intros e Hl Hs. exact (ends_at_local σ l l0 e Hl Hs Hends).
    + intros e s es Hl Hs Hls Hss.
      exact (ends_at_delegate σ l s l0 e es Hl Hs Hls Hss Hends).
    + apply threads_set_lookup.
    + intros l' Hne. unfold threads_set. cbn [heap]. by rewrite lookup_insert_ne.
    + unfold threads_set, ping_update. cbn [trace].
      destruct (update e0) as [[|k]|]; cbn [snd]; rewrite ?app_nil_r; auto.
Qed.

(** X14. Engines that delegate share one thread count. In a reachable
    process, when two engines (the same one or not) each have a delegate,
    [SetThreads] on the first and then on the second both return; after the
    first the singleton's [Threads] is the first count, after the second it
    is the second count, and the two engines' own [Threads] are what they
    were before both calls. *)
Theorem SetThreads_delegates_alias (σ : Process) (l1 l2 : loc) (e1 e2 : Hmhash)
    (n1 n2 : Z) :
  reachable σ ->
  heap σ !! l1 = Some e1 -> shared e1 <> None ->
  heap σ !! l2 = Some e2 -> shared e2 <> None ->
  exists σ1 σ2,
    SetThreads l1 n1 σ = Return σ1
    /\ Threads singleton σ1 = Return n1
    /\ SetThreads l2 n2 σ1 = Return σ2
    /\ Threads singleton σ2 = Return n2
    /\ Threads l1 σ2 = Return (threads e1)
    /\ Threads l2 σ2 = Return (threads e2).
Proof.
  intros Hr Hl1 Hs1 Hl2 Hs2.
  destruct (reachable_singleton σ Hr) as (_ & (es & Hes & _ & Hnone & _) & Hall).
  destruct (shared e1) as [s1|] eqn:Hsh1; [|done].
  destruct (shared e2) as [s2|] eqn:Hsh2; [|done].
  pose proof (Hall _ _ _ Hl1 Hsh1) as ->.
  pose proof (Hall _ _ _ Hl2 Hsh2) as ->.
  assert (Hne1 : singleton <> l1) by (intros <-; congruence).
  assert (Hne2 : singleton <> l2) by (intros <-; congruence).
  pose (σ1 := threads_set singleton es n1 σ).
  assert (Hes1 : heap σ1 !! singleton
                 = Some (set_threads_update es n1 (ping_update singleton (update es)).1)).
  { unfold σ1, threads_set. cbn [heap]. apply lookup_insert_eq. }
  assert (Hl1' : heap σ1 !! l1 = Some e1).
  { unfold σ1, threads_set. cbn [heap]. by rewrite lookup_insert_ne. }
  assert (Hl2' : heap σ1 !! l2 = Some e2).
  { unfold σ1, threads_set. cbn [heap]. by rewrite lookup_insert_ne. }
  exists σ1,
    (threads_set singleton
       (set_threads_update es n1 (ping_update singleton (update es)).1) n2 σ1).
  split_and!.
  - by eapply SetThreads_shared.
  - apply threads_set_lookup.
  - by eapply SetThreads_shared.
  - apply threads_set_lookup.
  - by apply threads_set_other.
  - by apply threads_set_other.
Qed.

(** X15. An engine whose delegate is itself: [SetThreads] takes the
    engine's mutex and, holding it, calls [SetThreads] on the delegate,
    which waits for the same mutex. The call never returns. *)
Theorem SetThreads_self_delegate_blocks (σ : Process) (l : loc) (e : Hmhash) (n : Z) :
  heap σ !! l = Some e -> shared e = Some l ->
  SetThreads l n σ = Blocks.
Proof.
  intros Hl Hs. unfold SetThreads. generalize (S (size (heap σ))) as fuel.
  induction fuel as [|fuel IH]; [done|].
  cbn [SetThreads_fuel]. rewrite (deref_Some _ _ _ Hl).
  cbn [mbind outcome_bind]. by rewrite Hs.
Qed.

(** X16. The function [StopRemoteSealer] hands to [closeOnce.Do] must not
    run twice: on an engine with a remote handle, when it has returned,
    running it again on the engine it left panics on closing the closed
    channel [requestExit]. *)
Theorem stop_func_twice_panics (l : loc) (e e' : Hmhash) (evs : list event) :
  remote e <> None ->
  stop_func l e = Return (e', evs) ->
  stop_func l e' = Panics CloseOfClosedChannel.
Proof.
  intros Hr Hrun. unfold stop_func in Hrun.
  destruct (remote e) as [r|]; [|done].
  destruct (requestExit r); cbn in Hrun; [|discriminate].
  by injection Hrun as <- <-.
Qed.

(** X17. [Close] and then [Hashrate]. In a reachable process [Close] on
    an allocated engine returns nil; afterwards [Hashrate] of an engine
    that has a remote handle is the reading of its own meter alone, in
    every mode, whatever the remote miners had reported; [Hashrate] of an
    engine without a remote handle is what it was before. *)
Theorem Close_then_Hashrate (σ : Process) (l : loc) (e : Hmhash) :
  reachable σ -> heap σ !! l = Some e ->
  exists σ',
    Close l σ = Return (None, σ')
    /\ (remote e <> None -> Hashrate l σ' = Rate1 (hashrate e))
    /\ (remote e = None -> Hashrate l σ' = Hashrate l σ).
Proof.
  intros Hr Hl.
  destruct (proj2 (reachable_wf σ Hr) l e Hl) as [Hwf _].
  destruct (closeOnce e) eqn:Hd.
  - exists σ. split; [by eapply Close_done|]. split; [|done].
    intros Hrem. destruct (remote e) as [r|] eqn:Hre; [|done].
    specialize (Hwf r Hre). rewrite Hd in Hwf. destruct Hwf as [_ Hex].
    destruct (decide (PowMode (config e) <> ModeNormal
                      /\ PowMode (config e) <> ModeTest)) as [[Hn Ht]|Hm].
    + by apply Hashrate_other_modes.
    + rewrite (Hashrate_normal_test σ l e Hl).
      * rewrite Hre. unfold remoteSealer_loop.
        destruct (requestExit r); cbn; by rewrite ?Hex.
      * by destruct (Mode_normal_test_dec (PowMode (config e))).
  - eexists. split; [by eapply Close_first|]. split.
    + intros Hrem. destruct (remote e) as [r|] eqn:Hre; [|done].
      unfold Hashrate, deref. cbn [heap]. rewrite lookup_insert_eq.
      cbn [mbind outcome_bind]. unfold closed_engine. cbn. rewrite Hre. cbn.
      by case_decide.
    + intros Hrem.
      apply (Hashrate_insert σ _ l e (closed_engine e)); try done.
      unfold closed_engine. cbn. by rewrite Hrem.
Qed.

(** X18. [Close] stops its own engine only. Whatever the state, a
    [Close] that returns has returned nil and has left [sharedHmhash],
    every other engine, every engine's thread count and every other
    engine's [Hashrate] as they were; so closing an engine that delegates
    does not stop the delegate's sealer. *)
Theorem Close_frame (σ σ' : Process) (l : loc) (err : error) :
  Close l σ = Return (err, σ') ->
  err = None
  /\ sharedHmhash σ' = sharedHmhash σ
  /\ (forall l', l' <> l -> heap σ' !! l' = heap σ !! l')
  /\ (forall l', Threads l' σ' = Threads l' σ)
  /\ (forall l', l' <> l -> Hashrate l' σ' = Hashrate l' σ).
Proof.
  intros Hrun.
  destruct (Close_inv _ _ _ _ Hrun)
    as (-> & e & e' & evs & Hl & -> & Hsame & Hthr & _).
  split_and!; [done|done| | |].
  - intros l' Hne. cbn [heap]. by rewrite lookup_insert_ne.
  - intros l'. unfold Threads, deref. cbn [heap].
    destruct (decide (l' = l)) as [->|Hne].
    + rewrite lookup_insert_eq, Hl. cbn. by rewrite Hthr.
    + by rewrite lookup_insert_ne.
  - intros l' Hne. unfold Hashrate, deref. cbn [heap].
    by rewrite lookup_insert_ne.
Qed.

End EngineFurther.

(** ** The engine operations in the process after [init] *)

(** X11: [SetThreads(4)] on the singleton of the process after [init]. *)
Lemma step_keeps_setup_witness :
  sharedHmhash (threads_set sample_singleton sample_singleton_engine 4 sample_start)
  = sharedHmhash sample_start
  /\ exists e',
       heap (threads_set sample_singleton sample_singleton_engine 4 sample_start)
         !! sample_singleton = Some e'
       /\ same_setup sample_singleton_engine e'.
Proof.
  apply (step_keeps_setup sample_start
           (threads_set sample_singleton sample_singleton_engine 4 sample_start)
           sample_singleton sample_singleton_engine).
  - apply (step_SetThreads sample_singleton 4).
    apply SetThreads_local; [apply sample_singleton_lookup|reflexivity].
  - apply sample_singleton_lookup.
Defined.

(** X12: the process after [init]. *)
Lemma singleton_invariant_witness :
  sharedHmhash sample_start = Some sample_singleton
  /\ (exists e : Hmhash (P := sample_Packages),
        heap sample_start !! sample_singleton = Some e
        /\ config e = {| PowMode := ModeNormal; NotifyFull := false;
                         Log := Some (@log_Root sample_Packages) |}
        /\ shared e = None
        /\ hashrate e = metrics_NewMeterForced
        /\ notifyURLs <$> remote e = Some []
        /\ noverify <$> remote e = Some false)
  /\ (forall l (e : Hmhash (P := sample_Packages)) s, heap sample_start !! l = Some e -> shared e = Some s -> s = sample_singleton)
  /\ shared (P := sample_Packages)
       <$> heap (NewShared sample_start).2 !! (NewShared sample_start).1
     = Some (Some sample_singleton).
Proof. exact (singleton_invariant sample_start sample_start_reachable). Defined.

(** X13: [SetThreads(4)] on the engine of [NewShared()]. *)
Lemma SetThreads_frame_witness :
  exists σ',
    SetThreads sample_NewShared.1 4 sample_NewShared.2 = Return σ'
    /\ sharedHmhash σ' = sharedHmhash sample_NewShared.2
    /\ (forall l', Hashrate l' σ' = Hashrate l' sample_NewShared.2)
    /\ exists l0,
         ends_at sample_NewShared.2 sample_NewShared.1 l0
         /\ (forall e, heap sample_NewShared.2 !! sample_NewShared.1 = Some e ->
               shared e = None -> l0 = sample_NewShared.1)
         /\ (forall e s es,
               heap sample_NewShared.2 !! sample_NewShared.1 = Some e ->
               shared e = Some s ->
               heap sample_NewShared.2 !! s = Some es -> shared es = None -> l0 = s)
         /\ Threads l0 σ' = Return 4
         /\ (forall l', l' <> l0 -> heap σ' !! l' = heap sample_NewShared.2 !! l')
         /\ (trace σ' = trace sample_NewShared.2
             \/ trace σ' = trace sample_NewShared.2 ++ [EvUpdate l0]).
Proof.
  assert (Hrun : SetThreads sample_NewShared.1 4 sample_NewShared.2
                 = Return (threads_set sample_singleton sample_singleton_engine 4
                             sample_NewShared.2)).
  { eapply SetThreads_shared.
    - apply new_Hmhash_lookup.
    - cbn [shared]. apply sample_sharedHmhash.
    - apply new_Hmhash_old, sample_singleton_lookup.
    - reflexivity. }
  eexists. split; [exact Hrun|].
  exact (SetThreads_frame _ _ _ _ Hrun).
Defined.

Example SetThreads_frame_sample :
  exists σ',
    SetThreads sample_NewShared.1 4 sample_NewShared.2 = Return σ'
    /\ Threads sample_singleton σ' = Return 4
    /\ Threads sample_NewShared.1 σ' = Return 0.
Proof. eexists. split_and!; vm_compute; reflexivity. Qed.

(** X14: two engines of [NewShared()], set to 2 and then to 7. *)
Lemma SetThreads_delegates_alias_witness :
  exists σ1 σ2,
    SetThreads sample_NewShared.1 2 (NewShared sample_NewShared.2).2 = Return σ1
    /\ Threads sample_singleton σ1 = Return 2
    /\ SetThreads (NewShared sample_NewShared.2).1 7 σ1 = Return σ2
    /\ Threads sample_singleton σ2 = Return 7
    /\ Threads sample_NewShared.1 σ2 = Return 0
    /\ Threads (NewShared sample_NewShared.2).1 σ2 = Return 0.
Proof.
  assert (Hr : reachable (NewShared sample_NewShared.2).2)
    by (do 2 constructor; apply sample_start_reachable).
  eassert (Hl1 : heap (NewShared sample_NewShared.2).2 !! sample_NewShared.1 = Some _)
    by apply new_Hmhash_old, new_Hmhash_lookup.
  eassert (Hl2 : heap (NewShared sample_NewShared.2).2
                   !! (NewShared sample_NewShared.2).1 = Some _)
    by apply new_Hmhash_lookup.
  refine (SetThreads_delegates_alias _ _ _ _ _ 2 7 Hr Hl1 _ Hl2 _).
  - cbn [shared]. rewrite sample_sharedHmhash. discriminate.
  - cbn [shared new_Hmhash snd sharedHmhash sample_NewShared NewShared].
    rewrite sample_sharedHmhash. discriminate.
Defined.

(** X15: one engine, its own delegate. *)
Lemma SetThreads_self_delegate_blocks_witness :
  SetThreads (P := sample_Packages) 1%positive 4
    {| heap := {[ 1%positive :=
                  {| config := Config_zero; rand := None; threads := 0;
                     update := None; hashrate := Meter_zero; remote := None;
                     shared := Some 1%positive; fakeFail := 0; fakeDelay := 0;
                     closeOnce := false |} ]};
       sharedHmhash := None; trace := [] |}
  = Blocks.
Proof.
  eapply SetThreads_self_delegate_blocks; [apply lookup_singleton_eq|reflexivity].
Defined.

(** X16: the singleton [init] made. *)
Lemma stop_func_twice_panics_witness :
  exists e' evs,
    stop_func sample_singleton sample_singleton_engine = Return (e', evs)
    /\ stop_func sample_singleton e' = Panics CloseOfClosedChannel.
Proof.
  eexists _, _. split; [reflexivity|].
  eapply (stop_func_twice_panics sample_singleton sample_singleton_engine);
    [discriminate|reflexivity].
Defined.

(** X17: the singleton of the process after [init]. *)
Lemma Close_then_Hashrate_witness :
  exists σ',
    Close sample_singleton sample_start = Return (None, σ')
    /\ (remote sample_singleton_engine <> None ->
        Hashrate sample_singleton σ' = Rate1 (hashrate sample_singleton_engine))
    /\ (remote sample_singleton_engine = None ->
        Hashrate sample_singleton σ' = Hashrate sample_singleton sample_start).
Proof.
  exact (Close_then_Hashrate sample_start sample_singleton sample_singleton_engine
           sample_start_reachable sample_singleton_lookup).
Defined.

Example Close_then_Hashrate_sample :
  exists σ',
    Close sample_singleton (report_rate sample_singleton 500 sample_start)
    = Return (None, σ')
    /\ Hashrate sample_singleton (report_rate sample_singleton 500 sample_start)
       = Return 500
    /\ Hashrate sample_singleton σ' = Return 0.
Proof. eexists. split_and!; vm_compute; reflexivity. Qed.

(** X18: [Close] on the engine of [NewShared()]. *)
Lemma Close_frame_witness :
  exists σ',
    Close sample_NewShared.1 sample_NewShared.2 = Return (None, σ')
    /\ sharedHmhash σ' = sharedHmhash sample_NewShared.2
    /\ (forall l', l' <> sample_NewShared.1 ->
          heap σ' !! l' = heap sample_NewShared.2 !! l')
    /\ (forall l', Threads l' σ' = Threads l' sample_NewShared.2)
    /\ (forall l', l' <> sample_NewShared.1 ->
          Hashrate l' σ' = Hashrate l' sample_NewShared.2).
Proof.
  pose proof (Close_first sample_NewShared.2 sample_NewShared.1 _
                (new_Hmhash_lookup _ sample_start) eq_refl
                (fun r (Hr : None = Some r) => ltac:(discriminate))) as Hrun.
  eexists. split; [exact Hrun|].
  exact (proj2 (Close_frame _ _ _ _ Hrun)).
Defined.
